(** * Multiple item dragging: membership, selection and drag session

    A shallow embedding of
    [src/stories/Sortable/MultipleItemDragging/MultipleItemDragging.story.tsx]:
    the state held by [SelectableSortable] (the [items] mapping, the
    selection, the rollback snapshot, the active identifier and the tracking
    container) and its handlers [onSelectionChanged], [clearSelection],
    [onDragStart], [onDragOver], [onDragEnd] and [onDragCancel], together with
    [customCollisionDetectionStrategy].

    Conventions of the embedding.
    - A JavaScript string is a [string]; [null] and [undefined] are [None].
    - An array of identifiers is a [list elem] with [elem := option string]:
      the source can store [undefined] in an array (reading an index that is
      out of range and inserting the result), written [None] here.
    - The object [items : Record<string, string[]>] is an association list in
      insertion order, which is the order of [Object.keys]; its keys are
      pairwise distinct. One corner of JavaScript objects is left out: keys
      that are canonical array indices, which are enumerated first.
    - [key in items] is true for the keys of the mapping and for the names
      of the properties every object inherits from [Object.prototype]
      ([objectPrototypeNames]); reading [items[key]] for a name that is not
      a key of the mapping gives no array, and a method call on the result
      raises.
    - Array indices and lengths are in [Z], since the source uses [-1] as the
      result of a failed [indexOf].
    - Coordinates of rectangles are JavaScript numbers: IEEE 754 binary64
      floats, with their arithmetic and their comparison.
    - A handler returns [option State]; [None] is the [TypeError] the source
      raises when it reads a property of [undefined] or of [null], or calls
      a method that is not there.
    - Each handler runs on the state of the latest render: the values it
      closes over ([items], [selectedItems], [activeId]) are those of the
      state it is applied to. *)

From Stdlib Require Import ZArith Floats Ascii.
From stdpp Require Import base option list strings pretty.

Open Scope string_scope.
Open Scope list_scope.
Open Scope Z_scope.

(** ** Arrays of identifiers *)

Abbreviation elem := (option string).

(** The identifiers stored in an array, without the [undefined] entries. *)
Definition ids (l : list elem) : list string := omap id l.

(** [array.includes(id)] *)
Definition includes (l : list elem) (id : string) : bool :=
  bool_decide (Some id ∈ l).

(** [array.indexOf(id)]: the first index holding [id], or [-1]. *)
Definition indexOf (l : list elem) (id : string) : Z :=
  match list_find (λ x, x = Some id) l with
  | Some (i, _) => Z.of_nat i
  | None => -1
  end.

(** [array[i]]: [undefined] when [i] is not an index of the array. *)
Definition at_index (l : list elem) (i : Z) : elem :=
  if bool_decide (0 ≤ i) then default None (l !! Z.to_nat i) else None.

(** [array.length] *)
Definition len {A} (l : list A) : Z := Z.of_nat (length l).

(** The way [slice] and [splice] read an index argument: a negative index
    counts from the end, and the result is clamped to [0 .. length]. *)
Definition relative_index (n k : Z) : nat :=
  Z.to_nat (if bool_decide (k < 0) then Z.max (n + k) 0 else Z.min k n).

(** [array.slice(start, end)] *)
Definition slice {A} (l : list A) (start stop : Z) : list A :=
  let s := relative_index (len l) start in
  let e := relative_index (len l) stop in
  take (e - s)%nat (drop s l).

(** [array.splice(start, 0, ...xs)], as a function of the old array. *)
Definition splice_in {A} (l : list A) (start : Z) (xs : list A) : list A :=
  let s := relative_index (len l) start in
  take s l ++ xs ++ drop s l.

(** [array.filter((item) => item !== id)] *)
Definition without (id : string) (l : list elem) : list elem :=
  filter (λ x, x ≠ Some id) l.

(** JavaScript truthiness of a string that may be [undefined] or [null]. *)
Definition truthy (o : option string) : bool :=
  match o with
  | Some s => negb (bool_decide (s = ""))
  | None => false
  end.

(** ** The membership mapping *)

Abbreviation Items := (list (string * list elem)).

(** [Object.keys(items)] *)
Definition keys (items : Items) : list string := items.*1.

(** [items[key]] for a key of the mapping. For any other name the result is
    [None]: what the source reads is then [undefined] or an inherited
    property, no array, and the method the handlers call on it ([indexOf],
    [filter], [slice]) is not there, so that the call raises. *)
Fixpoint get (items : Items) (key : string) : option (list elem) :=
  match items with
  | [] => None
  | (k, l) :: rest => if decide (k = key) then Some l else get rest key
  end.

(** The names of the properties of [Object.prototype], which every object
    literal inherits: those of the language standard and of its annex on
    web browsers. *)
Definition objectPrototypeNames : list string :=
  [ "constructor"; "hasOwnProperty"; "isPrototypeOf"; "propertyIsEnumerable";
    "toLocaleString"; "toString"; "valueOf"; "__proto__";
    "__defineGetter__"; "__defineSetter__"; "__lookupGetter__";
    "__lookupSetter__" ].

(** [key in items]: true for an own key and for an inherited name. *)
Definition has (items : Items) (key : string) : bool :=
  bool_decide (key ∈ keys items ∨ key ∈ objectPrototypeNames).

(** [{...items, [key]: l}]: an existing key keeps its place, a new key is
    added last. *)
Fixpoint set (items : Items) (key : string) (l : list elem) : Items :=
  match items with
  | [] => [(key, l)]
  | (k, l0) :: rest =>
      if decide (k = key) then (k, l) :: rest else (k, l0) :: set rest key l
  end.

(** All identifiers of the mapping, container after container. *)
Definition allIds (items : Items) : list string :=
  kv ← items; ids kv.2.

Arguments ids : simpl never.
Arguments allIds : simpl never.

Definition TRASH_DROPPABLE_ID : string := "trash".

(** [createRange(length, initializer)] of [src/utilities], which is
    [[...new Array(length)].map((_, index) => initializer(index))]. *)
Definition createRange {A} (length : nat) (initializer : nat → A) : list A :=
  map initializer (seq 0 length).

(** The initial value of [items] when no [items] prop is given. *)
Definition defaultItems (itemCount : nat) : Items :=
  [ ("A", createRange itemCount (λ index, Some ("A" +:+ pretty index)));
    ("B", createRange itemCount (λ index, Some ("B" +:+ pretty index)));
    ("C", createRange itemCount (λ index, Some ("C" +:+ pretty index)));
    (TRASH_DROPPABLE_ID, []) ].

(** ** Rectangles and collision detection *)

Record ClientRect : Type := mkRect {
  top : float; bottom : float; left : float; right : float;
  width : float; height : float }.

(** [Math.max] and [Math.min] on two numbers that are not [NaN]. *)
Definition fmax (x y : float) : float := if PrimFloat.ltb x y then y else x.
Definition fmin (x y : float) : float := if PrimFloat.ltb y x then y else x.

(** Modelled from the spec: the overlap test of [rectIntersection], which is
    in [@dnd-kit/core] and not under [src/]. The spec (4.3) says that a
    rectangle "overlaps the dragged region (any non-zero intersection)": the
    common part of the two rectangles has a positive width and a positive
    height. *)
Definition intersects (entry target : ClientRect) : bool :=
  PrimFloat.ltb (fmax (left target) (left entry)) (fmin (right target) (right entry))
  && PrimFloat.ltb (fmax (top target) (top entry)) (fmin (bottom target) (bottom entry)).

(** Modelled from the spec: [rectIntersection] of [@dnd-kit/core], missing
    from [src/]. Following 4.3 step 1 it reports a candidate that has a
    non-zero intersection with the dragged rectangle (the first registered
    one), and [null] when there is none. *)
Definition rectIntersection (clientRects : list (string * ClientRect))
    (clientRect : ClientRect) : option string :=
  fst <$> head (filter (λ entry, intersects entry.2 clientRect = true) clientRects).

(** Twice the centre of a rectangle, and the squared distance between the
    doubled centres; comparing these compares the Euclidean distances. *)
Definition centre2 (r : ClientRect) : float * float :=
  (2 * left r + width r, 2 * top r + height r)%float.

Definition distance2 (a b : ClientRect) : float :=
  let '(ax, ay) := centre2 a in
  let '(bx, by_) := centre2 b in
  ((ax - bx) * (ax - bx) + (ay - by_) * (ay - by_))%float.

(** Modelled from the spec: [closestRect] of [@dnd-kit/core], missing from
    [src/]. Following 4.3 steps 2 and 3 it reports the candidate whose centre
    is closest to the centre of the dragged rectangle, the first registered
    one among equals, and [null] when there is no candidate. *)
Fixpoint closestRect (clientRects : list (string * ClientRect))
    (clientRect : ClientRect) : option string :=
  match clientRects with
  | [] => None
  | (id, r) :: rest =>
      match closestRect rest clientRect with
      | None => Some id
      | Some id' =>
          if forallb (λ entry, PrimFloat.leb (distance2 r clientRect)
                                 (distance2 entry.2 clientRect)) rest
          then Some id else Some id'
      end
  end.

(** [customCollisionDetectionStrategy] (source lines 113-126). *)
Definition customCollisionDetectionStrategy
    (clientRects : list (string * ClientRect)) (clientRect : ClientRect)
    : option string :=
  let trashRect := filter (λ entry, entry.1 = TRASH_DROPPABLE_ID) clientRects in
  if truthy (rectIntersection trashRect clientRect) then Some TRASH_DROPPABLE_ID
  else
    let otherRects := filter (λ entry, entry.1 ≠ TRASH_DROPPABLE_ID) clientRects in
    closestRect otherRects clientRect.

(** ** The state of [SelectableSortable] *)

(** The [over] argument of the drag events: a droppable, with its identifier
    and its rectangle. *)
Record Over : Type := mkOver { over_id : string; over_clientRect : ClientRect }.

(** The four [useState] cells and the [activeContainerRef] of the component
    (source lines 145-167). *)
Record State : Type := mkState {
  items : Items;
  selectedItems : list string;
  clonedItems : option Items;
  activeId : option string;
  activeContainerRef : option string }.

(** The state of the first render (source lines 145-156 and 165). *)
Definition initialState (parentItems : Items) : State :=
  {| items := parentItems; selectedItems := []; clonedItems := None;
     activeId := None; activeContainerRef := None |}.

(** [findContainer] (source lines 168-174). [Object.keys(items).find] walks
    the keys in order; [items[key]] is the sequence paired with the key. *)
Definition findContainer (items : Items) (id : string) : option string :=
  if has items id then Some id
  else (λ found, found.2.1) <$> list_find (λ kv, includes kv.2 id = true) items.

(** [getIndex] (source lines 176-186). *)
Definition getIndex (items : Items) (id : string) : option Z :=
  let container := findContainer items id in
  if negb (truthy container) then Some (-1)
  else c ← container; l ← get items c; Some (indexOf l id).

(** [isItemSelected] (source lines 188-189). *)
Definition isItemSelected (s : State) (itemId : string) : bool :=
  bool_decide (itemId ∈ selectedItems s).

Definition setSelectedItems (s : State) (sel : list string) : State :=
  {| items := items s; selectedItems := sel; clonedItems := clonedItems s;
     activeId := activeId s; activeContainerRef := activeContainerRef s |}.

(** [onSelectionChanged] (source lines 191-201). *)
Definition onSelectionChanged (s : State) (id : string) (isShiftSelect : bool)
    : State :=
  if isShiftSelect then
    if isItemSelected s id
    then setSelectedItems s (filter (λ itemId, itemId ≠ id) (selectedItems s))
    else setSelectedItems s (selectedItems s ++ [id])
  else setSelectedItems s [].

(** [clearSelection] (source lines 204-208), on the node name of the click
    target and on its [parentNode]: the node name of the parent, or [None]
    when the target has no parent ([parentNode] is [null]). [&&] reads
    [target.parentNode.nodeName] only when the target is not an [LI], and
    that read raises on [null]. *)
Definition clearSelection (s : State) (nodeName : string)
    (parentNode : option string) : option State :=
  if bool_decide (nodeName ≠ "LI") then
    parentNodeName ← parentNode;
    if bool_decide (parentNodeName ≠ "LI")
    then Some (setSelectedItems s [])
    else Some s
  else Some s.

(** The identifiers the component renders as selectable, draggable items
    (source lines 374-387): the entries of every container but the trash. *)
Definition renderedIds (items : Items) : list string :=
  allIds (filter (λ kv, kv.1 ≠ TRASH_DROPPABLE_ID) items).

(** One step of the [reduce] of [onDragStart] (source lines 240-253);
    [items0] is the mapping [findContainer] closes over. *)
Definition pickUp (items0 : Items) (active : string) (ret : Items)
    (selectedItem : string) : option Items :=
  if decide (selectedItem = active) then Some ret
  else
    let container := findContainer items0 selectedItem in
    if negb (truthy container) then Some ret
    else
      c ← container;
      l ← get ret c;
      Some (set ret c (without selectedItem l)).

(** [array.reduce(f, init)] for a step that can raise. *)
Definition reduce {A B} (f : B → A → option B) (l : list A) (init : B) : option B :=
  foldl (λ acc x, ret ← acc; f ret x) (Some init) l.

(** [onDragStart] (source lines 229-256). *)
Definition onDragStart (s : State) (active : string) : option State :=
  let selected :=
    if negb (bool_decide (len (selectedItems s) = 0)) && negb (isItemSelected s active)
    then selectedItems s ++ [active]
    else selectedItems s in
  let activeContainer := findContainer (items s) active in
  newItems ←
    (if bool_decide (len (selectedItems s) > 0)
     then reduce (pickUp (items s) active) (selectedItems s) (items s)
     else Some (items s));
  Some {| items := newItems; selectedItems := selected;
          clonedItems := Some (items s); activeId := Some active;
          activeContainerRef := activeContainer |}.

(** [onDragOver] (source lines 257-305). *)
Definition onDragOver (s : State) (over : option Over) (draggingRect : ClientRect)
    : option State :=
  match over with
  | None => Some s
  | Some over =>
      let overContainer := findContainer (items s) (over_id over) in
      let activeContainer := activeContainerRef s in
      match overContainer, activeContainer, activeId s with
      | Some oc, Some ac, Some active =>
          if negb (truthy overContainer) || negb (truthy activeContainer)
             || negb (truthy (activeId s))
          then Some s
          else if bool_decide (ac ≠ oc) then
            activeItems ← get (items s) ac;
            overItems ← get (items s) oc;
            let activeIndex := indexOf activeItems active in
            let overIndex := indexOf overItems (over_id over) in
            let isBelowLastItem :=
              bool_decide (overIndex = len overItems - 1)
              && PrimFloat.ltb
                   (bottom (over_clientRect over)
                    - height (over_clientRect over) / 2)%float
                   (top draggingRect) in
            let modifier := if isBelowLastItem then 1 else 0 in
            let newIndex :=
              if bool_decide (overIndex >= 0) then overIndex + modifier
              else len overItems + 1 in
            Some {| items :=
                      set (set (items s) ac (without active activeItems)) oc
                        (slice overItems 0 newIndex
                         ++ [at_index activeItems activeIndex]
                         ++ slice overItems newIndex (len overItems));
                    selectedItems := selectedItems s;
                    clonedItems := clonedItems s;
                    activeId := activeId s;
                    activeContainerRef := Some oc |}
          else Some s
      | _, _, _ => Some s
      end
  end.

Definition setActiveId (s : State) (a : option string) : State :=
  {| items := items s; selectedItems := selectedItems s;
     clonedItems := clonedItems s; activeId := a;
     activeContainerRef := activeContainerRef s |}.

Definition setItems (s : State) (new : Items) : State :=
  {| items := new; selectedItems := selectedItems s;
     clonedItems := clonedItems s; activeId := activeId s;
     activeContainerRef := activeContainerRef s |}.

(** [onDragCancel] (source lines 362-371). An object is always truthy, so
    [if (clonedItems)] tests for [null]. *)
Definition onDragCancel (s : State) : State :=
  {| items := default (items s) (clonedItems s);
     selectedItems := selectedItems s;
     clonedItems := None;
     activeId := None;
     activeContainerRef := activeContainerRef s |}.

Section DragSession.

(** [arrayMove] comes from [@dnd-kit/sortable] and is not under [src/]: the
    handlers take it as a parameter, and each result that depends on it says
    what it assumes of it. *)
Variable arrayMove : list elem → Z → Z → list elem.

(** [onDragEnd] (source lines 306-361). *)
Definition onDragEnd (s : State) (over : option Over) : option State :=
  if negb (truthy (activeId s)) then Some s
  else
    let activeContainer := activeContainerRef s in
    match over, activeContainer, activeId s with
    | Some over, Some ac, Some active =>
        if negb (truthy activeContainer) then Some (setActiveId s None)
        else if bool_decide (over_id over = TRASH_DROPPABLE_ID) then
          Some (setActiveId (setItems s (set (items s) TRASH_DROPPABLE_ID [])) None)
        else
          let overContainer := findContainer (items s) (over_id over) in
          match overContainer with
          | Some oc =>
              if truthy overContainer then
                activeItems ← get (items s) ac;
                overItems ← get (items s) oc;
                let activeIndex := indexOf activeItems active in
                let overIndex := indexOf overItems (over_id over) in
                if negb (bool_decide (len (selectedItems s) = 0)) then
                  Some (setActiveId
                          (setItems s
                             (set (items s) oc
                                (splice_in (arrayMove overItems activeIndex overIndex)
                                   (overIndex + 1)
                                   (Some <$> filter (λ item, item ≠ active)
                                               (selectedItems s)))))
                          None)
                else if bool_decide (activeIndex ≠ overIndex) then
                  Some (setActiveId
                          (setItems s
                             (set (items s) oc
                                (arrayMove overItems activeIndex overIndex)))
                          None)
                else Some (setActiveId s None)
              else Some (setActiveId s None)
          | None => Some (setActiveId s None)
          end
    | _, _, _ => Some (setActiveId s None)
    end.

(** ** Events *)

(** What reaches the component: clicks on an item (the [onClick] listener of
    [SelectableSortableItem], which calls [onSelect(id, event.shiftKey)]),
    clicks seen by the document listener, and the four drag events. *)
Inductive Event : Type :=
  | ItemClick (id : string) (shiftKey : bool)
  | DocumentClick (nodeName : string) (parentNode : option string)
  | DragStart (active : string)
  | DragOver (over : option Over) (draggingRect : ClientRect)
  | DragEnd (over : option Over)
  | DragCancel.

Definition handle (s : State) (e : Event) : option State :=
  match e with
  | ItemClick id shiftKey => Some (onSelectionChanged s id shiftKey)
  | DocumentClick nodeName parentNode => clearSelection s nodeName parentNode
  | DragStart active => onDragStart s active
  | DragOver over draggingRect => onDragOver s over draggingRect
  | DragEnd over => onDragEnd s over
  | DragCancel => Some (onDragCancel s)
  end.

(** The state after a sequence of events, each handled on the state the
    previous one left. *)
Fixpoint run (s : State) (events : list Event) : option State :=
  match events with
  | [] => Some s
  | e :: rest => s' ← handle s e; run s' rest
  end.

(** ** Reachable states *)

(** A gesture is started when none is in progress, and is ended or cancelled
    once (spec, sections 5 and 6). Between gestures the user clicks: on a
    rendered item, or anywhere in the document. A drag starts on a rendered
    item; the droppable reported by a move or by the end is not constrained. *)
Inductive Phase : Type := Idle | Active.

Inductive reachable (parentItems : Items) : Phase → State → Prop :=
  | reach_init :
      reachable parentItems Idle (initialState parentItems)
  | reach_item_click s id shiftKey :
      reachable parentItems Idle s →
      id ∈ renderedIds (items s) →
      reachable parentItems Idle (onSelectionChanged s id shiftKey)
  | reach_document_click s nodeName parentNode s' :
      reachable parentItems Idle s →
      clearSelection s nodeName parentNode = Some s' →
      reachable parentItems Idle s'
  | reach_start s active s' :
      reachable parentItems Idle s →
      active ∈ renderedIds (items s) →
      onDragStart s active = Some s' →
      reachable parentItems Active s'
  | reach_over s over draggingRect s' :
      reachable parentItems Active s →
      onDragOver s over draggingRect = Some s' →
      reachable parentItems Active s'
  | reach_end s over s' :
      reachable parentItems Active s →
      onDragEnd s over = Some s' →
      reachable parentItems Idle s'
  | reach_cancel s :
      reachable parentItems Active s →
      reachable parentItems Idle (onDragCancel s).

(** The same, as a function that replays a sequence of events: [admissible]
    says whether an event can occur in a phase, and to which phase it leads;
    [play] stops with [None] at an event that is not admissible or at a
    handler that raises. *)
Definition admissible (phase : Phase) (s : State) (e : Event) : option Phase :=
  match phase, e with
  | Idle, ItemClick id _ =>
      if bool_decide (id ∈ renderedIds (items s)) then Some Idle else None
  | Idle, DocumentClick _ _ => Some Idle
  | Idle, DragStart active =>
      if bool_decide (active ∈ renderedIds (items s)) then Some Active else None
  | Active, DragOver _ _ => Some Active
  | Active, DragEnd _ => Some Idle
  | Active, DragCancel => Some Idle
  | _, _ => None
  end.

Fixpoint play (phase : Phase) (s : State) (events : list Event)
    : option (Phase * State) :=
  match events with
  | [] => Some (phase, s)
  | e :: rest =>
      phase' ← admissible phase s e;
      s' ← handle s e;
      play phase' s' rest
  end.

(** ** Reachable states, with the identifiers given up *)

(** The items picked up by the gesture in progress: the selected items
    other than the dragged one, which the [reduce] of [onDragStart] (source
    lines 238-255) took out of the mapping. *)
Definition pickedUp (s : State) : list string :=
  match activeId s with
  | Some active => filter (λ item, item ≠ active) (selectedItems s)
  | None => selectedItems s
  end.

(** What a release over the trash gives up: the entries of the trash
    sequence, among them the dragged item, which the live moves have put
    there, and the picked-up items, which the trash branch of [onDragEnd]
    (source lines 318-325) does not put back. *)
Definition discarded (s : State) : list string :=
  ids (default [] (get (items s) TRASH_DROPPABLE_ID)) ++ pickedUp s.

(** The ends of a gesture that are followed here, each with the identifiers
    it gives up: a release over the trash; a release over a droppable that
    [findContainer] resolves, which gives up nothing; and a release over
    nothing, or over a droppable that is not resolved, when no item is
    picked up. The release over nothing or over an unresolved droppable
    with items picked up is not followed ([None]). *)
Definition endOutcome (s : State) (over : option Over) : option (list string) :=
  match over with
  | Some over =>
      if bool_decide (over_id over = TRASH_DROPPABLE_ID) then Some (discarded s)
      else if truthy (findContainer (items s) (over_id over)) then Some []
      else if bool_decide (pickedUp s = []) then Some [] else None
  | None => if bool_decide (pickedUp s = []) then Some [] else None
  end.

(** [history parentItems phase s given_up]: the states of [reachable], along
    the ends that [endOutcome] follows, with the identifiers given up since
    the first render. *)
Inductive history (parentItems : Items) : Phase → State → list string → Prop :=
  | hist_init :
      history parentItems Idle (initialState parentItems) []
  | hist_item_click s given_up id shiftKey :
      history parentItems Idle s given_up →
      id ∈ renderedIds (items s) →
      history parentItems Idle (onSelectionChanged s id shiftKey) given_up
  | hist_document_click s given_up nodeName parentNode s' :
      history parentItems Idle s given_up →
      clearSelection s nodeName parentNode = Some s' →
      history parentItems Idle s' given_up
  | hist_start s given_up active s' :
      history parentItems Idle s given_up →
      active ∈ renderedIds (items s) →
      onDragStart s active = Some s' →
      history parentItems Active s' given_up
  | hist_over s given_up over draggingRect s' :
      history parentItems Active s given_up →
      onDragOver s over draggingRect = Some s' →
      history parentItems Active s' given_up
  | hist_end s given_up over lost s' :
      history parentItems Active s given_up →
      endOutcome s over = Some lost →
      onDragEnd s over = Some s' →
      history parentItems Idle s' (given_up ++ lost)
  | hist_cancel s given_up :
      history parentItems Active s given_up →
      history parentItems Idle (onDragCancel s) given_up.

(** The same, as a function that replays a sequence of events. *)
Fixpoint replay (phase : Phase) (s : State) (given_up : list string)
    (events : list Event) : option (Phase * State * list string) :=
  match events with
  | [] => Some (phase, s, given_up)
  | e :: rest =>
      phase' ← admissible phase s e;
      lost ← match e with DragEnd over => endOutcome s over | _ => Some [] end;
      s' ← handle s e;
      replay phase' s' (given_up ++ lost) rest
  end.

End DragSession.

(** Modelled from the spec: [arrayMove] of [@dnd-kit/sortable], missing from
    [src/]. The spec (4.4) calls it "a stable array move" and "a single
    reorder (array move) of the active item to [overIndex] within its
    container": the element at index [from] is taken out and put back at index
    [to], and the other elements keep their order. The spec does not say what
    happens when [from] is not an index of the array; the array is then left
    as it is. It instantiates the parameter of the handlers where a concrete
    run is needed. *)
Definition arrayMove_spec (array : list elem) (from to : Z) : list elem :=
  match (if bool_decide (0 ≤ from) then array !! Z.to_nat from else None) with
  | Some x =>
      let rest := delete (Z.to_nat from) array in
      take (Z.to_nat to) rest ++ [x] ++ drop (Z.to_nat to) rest
  | None => array
  end.

(** ** Well-formed mappings and the partition property *)

(** What the initial mapping is expected to satisfy: container names are
    distinct and not empty, no identifier occurs twice, and no item is named
    like a container or like the trash. *)
Definition wellFormed (parentItems : Items) : Prop :=
  NoDup (keys parentItems)
  ∧ ("" ∉ keys parentItems)
  ∧ NoDup (allIds parentItems)
  ∧ (∀ id, id ∈ allIds parentItems →
           (id ∉ keys parentItems) ∧ id ≠ TRASH_DROPPABLE_ID).

(** The number of places, over all containers, where [id] occurs. *)
Definition occurrences (id : string) (items : Items) : nat :=
  length (filter (λ x, x = id) (allIds items)).

(** Every identifier of the original mapping occurs exactly once. *)
Definition Partition (parentItems current : Items) : Prop :=
  ∀ id, id ∈ allIds parentItems → occurrences id current = 1%nat.

(** ** Predicates on states *)

(** The tracking container, when there is one, is a container of the
    mapping. *)
Definition tracked (s : State) : Prop :=
  ∀ c, activeContainerRef s = Some c → c ∈ keys (items s).

(** The mapping without the identifiers of [removed]: what the [reduce] of
    [onDragStart] computes. *)
Definition dropIds (removed : list string) (items : Items) : Items :=
  map (λ kv, (kv.1, filter (λ e : elem, e ∉ Some <$> removed) kv.2)) items.

(** What holds of every reachable state, between gestures and during one. *)
Record Invariant (parentItems : Items) (s : State) : Prop := {
  inv_keys_NoDup : NoDup (keys (items s));
  inv_keys_nonempty : "" ∉ keys (items s);
  inv_keys_known : keys (items s) ⊆ keys parentItems ++ [TRASH_DROPPABLE_ID];
  inv_ids_NoDup : NoDup (allIds (items s));
  inv_ids_original : allIds (items s) ⊆ allIds parentItems;
  inv_selection_original : selectedItems s ⊆ allIds parentItems;
  inv_selection_NoDup : NoDup (selectedItems s) }.

(** What holds in addition during a gesture: the selected items other than
    the active one are in no container, and the snapshot is a mapping of the
    same containers without duplicates. *)
Record Dragging (parentItems : Items) (s : State) : Prop := {
  drag_picked_up :
    ∀ a x, activeId s = Some a → x ∈ selectedItems s → x ≠ a →
           x ∉ allIds (items s);
  drag_snapshot :
    ∃ c, clonedItems s = Some c ∧ keys c = keys (items s)
         ∧ NoDup (allIds c) ∧ allIds c ⊆ allIds parentItems }.

(** The rollback snapshot, when there is one, has no container that the
    mapping lacks, has all of them while an item is active, and has the
    tracking container. *)
Definition snapshotCoherent (s : State) : Prop :=
  tracked s
  ∧ ∀ c, clonedItems s = Some c →
         keys c ⊆ keys (items s)
         ∧ (truthy (activeId s) = true → keys (items s) ⊆ keys c)
         ∧ (∀ r, activeContainerRef s = Some r → r ∈ keys c).

(** The containers of the first render, in their order, with the trash
    container added last when it was missing. *)
Definition sameContainers (parentItems : Items) (l : list string) : Prop :=
  l = keys parentItems
  ∨ ((TRASH_DROPPABLE_ID ∉ keys parentItems)
     ∧ l = keys parentItems ++ [TRASH_DROPPABLE_ID]).

(** Every identifier of the original mapping that was not given up is in
    the mapping, or is one of the items picked up by the gesture in
    progress. *)
Definition accounted (parentItems : Items) (given_up pending : list string)
    (current : Items) : Prop :=
  ∀ id, id ∈ allIds parentItems → id ∉ given_up →
        id ∈ allIds current ∨ id ∈ pending.

(** An event that does not name a property every object inherits, and that
    is not a click on a target that is no [LI] and has no parent. *)
Definition plainEvent (e : Event) : Prop :=
  match e with
  | ItemClick id _ => id ∉ objectPrototypeNames
  | DocumentClick nodeName parentNode => nodeName = "LI" ∨ is_Some parentNode
  | DragStart active => active ∉ objectPrototypeNames
  | DragOver (Some over) _ | DragEnd (Some over) =>
      over_id over ∉ objectPrototypeNames
  | DragOver None _ | DragEnd None | DragCancel => True
  end.

(** During a gesture: the active item is in the sequence of the tracking
    container. *)
Definition tracking (s : State) : Prop :=
  ∃ active c l, activeId s = Some active ∧ activeContainerRef s = Some c
                ∧ get (items s) c = Some l ∧ Some active ∈ l.

(** * Results *)

(** ** Collision detection *)

Lemma truthy_Some (s : string) : s ≠ "" → truthy (Some s) = true.
Proof. intros Hs. unfold truthy. by rewrite bool_decide_eq_false_2. Qed.

Lemma rectIntersection_elem rects rect id :
  rectIntersection rects rect = Some id →
  ∃ r, (id, r) ∈ rects ∧ intersects r rect = true.
Proof.
  unfold rectIntersection. intros Hhead.
  destruct (filter _ rects) as [|[id' r] tl] eqn:Hf; simplify_eq/=.
  assert ((id, r) ∈ filter (λ entry, intersects entry.2 rect = true) rects)
    as Hin by (rewrite Hf; left).
  apply list_elem_of_filter in Hin as [Hov Hin]. by exists r.
Qed.

Lemma rectIntersection_overlap rects rect id r :
  (id, r) ∈ rects → intersects r rect = true →
  is_Some (rectIntersection rects rect).
Proof.
  intros Hin Hr. unfold rectIntersection.
  assert ((id, r) ∈ filter (λ entry, intersects entry.2 rect = true) rects) as Hf
    by (by apply list_elem_of_filter).
  destruct (filter _ rects); [by apply elem_of_nil in Hf | by eexists].
Qed.

(** C3. Whenever a rectangle registered under the trash identifier has a
    non-zero intersection with the dragged rectangle, the strategy returns the
    trash identifier, whatever the other candidates are. *)
Theorem trash_wins_over_every_candidate clientRects clientRect trashRect :
  (TRASH_DROPPABLE_ID, trashRect) ∈ clientRects →
  intersects trashRect clientRect = true →
  customCollisionDetectionStrategy clientRects clientRect
  = Some TRASH_DROPPABLE_ID.
Proof.
  intros Hin Hov. unfold customCollisionDetectionStrategy.
  set (trash := filter (λ entry, entry.1 = TRASH_DROPPABLE_ID) clientRects).
  assert ((TRASH_DROPPABLE_ID, trashRect) ∈ trash) as Htrash
    by (by apply list_elem_of_filter).
  destruct (rectIntersection_overlap _ _ _ _ Htrash Hov) as [id Hid].
  rewrite Hid.
  destruct (rectIntersection_elem _ _ _ Hid) as (r & Hr & _).
  apply list_elem_of_filter in Hr as [Hfst _]. simpl in Hfst. subst id.
  by rewrite truthy_Some.
Qed.

(** The trash rectangle is small and far from the centre of the dragged
    rectangle, container ["A"] is registered first and is centred on it: the
    trash identifier is returned all the same. *)
Lemma trash_wins_over_every_candidate_witness :
  let A := mkRect 0 100 0 100 100 100 in
  let trash := mkRect 90 120 90 120 30 30 in
  let dragged := mkRect 0 100 0 100 100 100 in
  closestRect [("A", A); (TRASH_DROPPABLE_ID, trash)] dragged = Some "A"
  ∧ customCollisionDetectionStrategy [("A", A); (TRASH_DROPPABLE_ID, trash)] dragged
    = Some TRASH_DROPPABLE_ID.
Proof.
  intros A trash dragged. split; [reflexivity |].
  apply (trash_wins_over_every_candidate _ dragged trash).
  - apply list_elem_of_further, list_elem_of_here.
  - reflexivity.
Defined.

(** ** Arrays and the mapping *)

Lemma indexOf_absent (l : list elem) id : Some id ∉ l → indexOf l id = -1.
Proof.
  intros Hnot. unfold indexOf.
  destruct (list_find (λ x, x = Some id) l) as [[i x]|] eqn:Hfind; [|done].
  apply list_find_Some in Hfind as (Hi & -> & _).
  destruct Hnot. by eapply list_elem_of_lookup_2.
Qed.

Lemma indexOf_present (l : list elem) id :
  Some id ∈ l →
  ∃ i : nat, indexOf l id = Z.of_nat i ∧ l !! i = Some (Some id).
Proof.
  intros Hin. unfold indexOf.
  destruct (list_find (λ x, x = Some id) l) as [[i x]|] eqn:Hfind.
  - apply list_find_Some in Hfind as (Hi & -> & _). by exists i.
  - apply list_find_None in Hfind. rewrite Forall_forall in Hfind.
    by destruct (Hfind _ Hin).
Qed.

Lemma indexOf_lookup (l : list elem) id (i : nat) :
  indexOf l id = Z.of_nat i → l !! i = Some (Some id).
Proof.
  unfold indexOf.
  destruct (list_find (λ x, x = Some id) l) as [[j x]|] eqn:Hfind; [|intros; lia].
  apply list_find_Some in Hfind as (Hj & -> & _).
  intros Hij. by replace i with j by lia.
Qed.

Lemma indexOf_bounds (l : list elem) id : -1 ≤ indexOf l id < len l.
Proof.
  unfold indexOf, len.
  destruct (list_find (λ x, x = Some id) l) as [[j x]|] eqn:Hfind; [|lia].
  apply list_find_Some in Hfind as (Hj & _). apply lookup_lt_Some in Hj. lia.
Qed.

(** [array[array.indexOf(id)]] is [id] when the array holds it, and
    [undefined] otherwise. *)
Lemma at_index_indexOf (l : list elem) id :
  at_index l (indexOf l id) = if includes l id then Some id else None.
Proof.
  unfold includes, at_index. destruct (decide (Some id ∈ l)) as [Hin|Hin].
  - destruct (indexOf_present _ _ Hin) as (i & -> & Hi).
    rewrite !bool_decide_eq_true_2 by (done || lia). by rewrite Nat2Z.id, Hi.
  - rewrite indexOf_absent by done. by rewrite !bool_decide_eq_false_2 by (done || lia).
Qed.

Lemma relative_index_nonneg (n k : Z) :
  0 ≤ k → 0 ≤ n → relative_index n k = Z.to_nat (Z.min k n).
Proof. intros. unfold relative_index. by rewrite bool_decide_eq_false_2 by lia. Qed.

(** The two slices [onDragOver] takes around the insertion point. *)
Lemma slice_prefix {A} (l : list A) (n : Z) :
  0 ≤ n → slice l 0 n = take (Z.to_nat n) l.
Proof.
  intros Hn. unfold slice.
  rewrite !relative_index_nonneg by (unfold len; lia).
  replace (Z.to_nat (Z.min 0 (len l))) with 0%nat by (unfold len; lia).
  rewrite drop_0, Nat.sub_0_r. unfold len.
  destruct (decide (n ≤ Z.of_nat (length l))).
  - by rewrite Z.min_l by done.
  - rewrite Z.min_r, Nat2Z.id by lia. by rewrite !take_ge by lia.
Qed.

Lemma slice_suffix {A} (l : list A) (n : Z) :
  0 ≤ n → slice l n (len l) = drop (Z.to_nat n) l.
Proof.
  intros Hn. unfold slice.
  rewrite !relative_index_nonneg by (unfold len; lia).
  rewrite Z.min_id. unfold len. rewrite Nat2Z.id.
  destruct (decide (n ≤ Z.of_nat (length l))).
  - rewrite Z.min_l by done. apply take_ge. rewrite length_drop. lia.
  - rewrite Z.min_r, Nat2Z.id by lia.
    rewrite !drop_ge by lia. by rewrite take_nil.
Qed.

Lemma splice_in_nonneg {A} (l : list A) (n : Z) xs :
  0 ≤ n → splice_in l n xs = take (Z.to_nat n) l ++ xs ++ drop (Z.to_nat n) l.
Proof.
  intros Hn. unfold splice_in. rewrite relative_index_nonneg by (unfold len; lia).
  unfold len. destruct (decide (n ≤ Z.of_nat (length l))).
  - by rewrite Z.min_l by done.
  - rewrite Z.min_r, Nat2Z.id by lia.
    by rewrite !take_ge, !drop_ge by lia.
Qed.

Lemma get_set_eq items key l : get (set items key l) key = Some l.
Proof.
  induction items as [|[k l0] rest IH]; simpl.
  - by rewrite decide_True.
  - destruct (decide (k = key)) as [->|Hne]; simpl.
    + by rewrite decide_True.
    + by rewrite decide_False.
Qed.

Lemma get_set_ne items key key' l :
  key ≠ key' → get (set items key l) key' = get items key'.
Proof.
  intros Hne. induction items as [|[k l0] rest IH]; simpl.
  - by rewrite decide_False.
  - destruct (decide (k = key)) as [->|Hk]; simpl.
    + by rewrite !decide_False.
    + by rewrite IH.
Qed.

Lemma get_is_Some items key : is_Some (get items key) ↔ key ∈ keys items.
Proof.
  unfold keys. induction items as [|[k l0] rest IH]; simpl.
  - split; [by intros [? ?] | by intros ?%elem_of_nil].
  - destruct (decide (k = key)) as [->|Hk].
    + split; [intros _; left | by eexists].
    + rewrite IH. split; [by right | by intros [?|?]%elem_of_cons].
Qed.

Lemma keys_set_present items key l :
  key ∈ keys items → keys (set items key l) = keys items.
Proof.
  unfold keys. induction items as [|[k l0] rest IH]; simpl.
  - by intros ?%elem_of_nil.
  - intros Hin. destruct (decide (k = key)) as [->|Hk]; simpl; [done|].
    f_equal. apply IH. by apply elem_of_cons in Hin as [?|?].
Qed.

Lemma keys_set_absent items key l :
  key ∉ keys items → keys (set items key l) = keys items ++ [key].
Proof.
  unfold keys. induction items as [|[k l0] rest IH]; simpl; [done|].
  intros Hnot. apply not_elem_of_cons in Hnot as [Hne Hnot].
  rewrite decide_False by done. simpl. f_equal. by apply IH.
Qed.

Lemma set_get_same items key l :
  get items key = Some l → set items key l = items.
Proof.
  induction items as [|[k l0] rest IH]; simpl; [done|].
  destruct (decide (k = key)) as [->|Hk]; [by intros [= ->]|].
  intros Hget. by rewrite IH.
Qed.

Lemma splice_in_nil {A} (l : list A) (n : Z) : splice_in l n [] = l.
Proof. unfold splice_in. simpl. apply take_drop. Qed.

Lemma objectPrototypeNames_nonempty id : id ∈ objectPrototypeNames → id ≠ "".
Proof. intros Hin ->. apply (bool_decide_pack _) in Hin. by vm_compute in Hin. Qed.

Lemma trash_not_inherited : TRASH_DROPPABLE_ID ∉ objectPrototypeNames.
Proof. intros Hin. apply (bool_decide_pack _) in Hin. by vm_compute in Hin. Qed.

Lemma has_true items id :
  has items id = true ↔ id ∈ keys items ∨ id ∈ objectPrototypeNames.
Proof. unfold has. apply bool_decide_eq_true. Qed.

Lemma has_false items id :
  has items id = false ↔ (id ∉ keys items) ∧ (id ∉ objectPrototypeNames).
Proof. unfold has. rewrite bool_decide_eq_false. tauto. Qed.

(** What [findContainer] answers is a key of the mapping, or the identifier
    itself when it is an inherited name. *)
Lemma findContainer_cases items id c :
  findContainer items id = Some c →
  c ∈ keys items ∨ (c = id ∧ id ∈ objectPrototypeNames).
Proof.
  unfold findContainer. destruct (has items id) eqn:Hhas.
  - intros [= <-]. apply has_true in Hhas. tauto.
  - destruct (list_find (λ kv, includes kv.2 id = true) items)
      as [[i [k l]]|] eqn:Hfind; [|done].
    intros [= <-]. apply list_find_Some in Hfind as (Hi & _ & _).
    left. unfold keys. apply list_elem_of_fmap. exists (k, l).
    split; [done|]. by eapply list_elem_of_lookup_2.
Qed.

Lemma findContainer_key items id c :
  findContainer items id = Some c → id ∉ objectPrototypeNames → c ∈ keys items.
Proof. intros [|[_ ?]]%findContainer_cases ?; done. Qed.

Lemma findContainer_nonempty items id c :
  findContainer items id = Some c → "" ∉ keys items → c ≠ "".
Proof.
  intros [Hc|[-> Hc]]%findContainer_cases Hkeys.
  - by intros ->.
  - by apply objectPrototypeNames_nonempty.
Qed.

(** A handler that reads [items[c]] and returns has found a key. *)
Lemma get_Some_key items c l : get items c = Some l → c ∈ keys items.
Proof. intros Hget. apply get_is_Some. by eexists. Qed.

(** ** The handlers, one event at a time *)

Section Handlers.

Variable arrayMove : list elem → Z → Z → list elem.

Lemma truthy_inv o : truthy o = true → ∃ s, o = Some s ∧ s ≠ "".
Proof.
  destruct o as [s|]; simpl; [|done]. intros Hs. exists s. split; [done|].
  intros ->. by rewrite bool_decide_eq_true_2 in Hs.
Qed.

(** C4. A gesture that ends on the trash identifier, while an item is being
    dragged and its tracking container is known, commits by replacing the
    sequence of the trash container with the empty sequence, whatever it held
    before. *)
Theorem trash_is_empty_after_commit s over :
  truthy (activeId s) = true →
  truthy (activeContainerRef s) = true →
  over_id over = TRASH_DROPPABLE_ID →
  ∃ s', onDragEnd arrayMove s (Some over) = Some s'
        ∧ get (items s') TRASH_DROPPABLE_ID = Some []
        ∧ activeId s' = None.
Proof.
  intros Hactive Hcontainer Hover. unfold onDragEnd. rewrite Hactive. simpl.
  destruct (truthy_inv _ Hactive) as (a & Ha & _).
  destruct (truthy_inv _ Hcontainer) as (c & Hc & Hne).
  rewrite Ha, Hc, truthy_Some by done. simpl.
  rewrite bool_decide_eq_true_2 by done.
  eexists. split; [done|]. simpl. split; [apply get_set_eq | done].
Qed.

Lemma onDragEnd_selectedItems s over s' :
  onDragEnd arrayMove s over = Some s' → selectedItems s' = selectedItems s.
Proof.
  intros Hend. unfold onDragEnd in Hend.
  repeat case_match; simplify_option_eq; done.
Qed.

(** C5, as the code has it. Neither the end of a gesture, on the trash or
    anywhere else, nor its cancellation changes the selection: it is what it
    was when the event arrived. *)
Theorem drag_end_and_cancel_keep_selection s :
  (∀ over s', onDragEnd arrayMove s over = Some s' →
              selectedItems s' = selectedItems s)
  ∧ selectedItems (onDragCancel s) = selectedItems s.
Proof. split; [apply onDragEnd_selectedItems | done]. Qed.

(** C8. A live move onto the surface of another container, where the
    identifier under the pointer is not in the sequence of that container,
    appends the active item to that sequence and removes it from the
    sequence of the container it was tracked in. *)
Theorem live_move_onto_surface_appends s over draggingRect active ac oc
    activeItems overItems :
  activeId s = Some active → active ≠ "" →
  activeContainerRef s = Some ac → ac ≠ "" →
  findContainer (items s) (over_id over) = Some oc → oc ≠ "" →
  ac ≠ oc →
  get (items s) ac = Some activeItems →
  get (items s) oc = Some overItems →
  Some active ∈ activeItems →
  Some (over_id over) ∉ overItems →
  ∃ s', onDragOver s (Some over) draggingRect = Some s'
        ∧ get (items s') oc = Some (overItems ++ [Some active])
        ∧ get (items s') ac
          = Some (filter (λ item, item ≠ Some active) activeItems)
        ∧ activeContainerRef s' = Some oc.
Proof.
  intros Ha Hane Hac Hacne Hoc Hocne Hne HA HO Hin Hnot.
  unfold onDragOver. rewrite Hoc, Hac, Ha, !truthy_Some by done. simpl.
  rewrite bool_decide_eq_true_2 by done. rewrite HA, HO. simpl.
  rewrite (indexOf_absent overItems) by done.
  rewrite (bool_decide_eq_false_2 (-1 >= 0)) by lia.
  rewrite at_index_indexOf. unfold includes. rewrite bool_decide_eq_true_2 by done.
  rewrite slice_prefix, slice_suffix by (unfold len; lia).
  rewrite take_ge, drop_ge by (unfold len; lia).
  eexists. split; [done|]. simpl. split_and!.
  - by rewrite get_set_eq.
  - by rewrite get_set_ne, get_set_eq.
  - done.
Qed.

(** C9. When the gesture ends on a droppable other than the trash, in the
    container the active item is tracked in, at the index the active item
    already has, and no item other than the dragged one is selected, the
    mapping is left as it is. Nothing is selected, and the code compares the
    two indices and leaves the mapping alone; or the dragged item is the
    only selected one and is in the sequence, and the code moves it from its
    index to the same index with [arrayMove], which gives back the array it
    is given, and splices in nothing. *)
Theorem drop_on_own_position_is_noop s over active c l :
  (∀ array index, 0 ≤ index < len array → arrayMove array index index = array) →
  activeId s = Some active →
  activeContainerRef s = Some c →
  filter (λ item, item ≠ active) (selectedItems s) = [] →
  selectedItems s = [] ∨ Some active ∈ l →
  over_id over ≠ TRASH_DROPPABLE_ID →
  findContainer (items s) (over_id over) = Some c →
  get (items s) c = Some l →
  indexOf l active = indexOf l (over_id over) →
  ∃ s', onDragEnd arrayMove s (Some over) = Some s' ∧ items s' = items s.
Proof.
  intros Hmove Ha Hc Hrest Hsel Hover Hoc Hl Hindex. unfold onDragEnd.
  rewrite Ha, Hc, Hoc, Hl. simpl. rewrite <- Hindex, Hrest.
  rewrite (bool_decide_eq_false_2 (_ ≠ _)) by (by intros []).
  rewrite (bool_decide_eq_false_2 (over_id over = _)) by done.
  destruct (bool_decide (len (selectedItems s) = 0)) eqn:Hlen; simpl.
  - repeat case_match; (eexists; split; [reflexivity | reflexivity]).
  - apply bool_decide_eq_false in Hlen.
    destruct Hsel as [Hsel|Hin]; [by rewrite Hsel in Hlen|].
    destruct (indexOf_present _ _ Hin) as (i & Hi & Hlookup).
    apply lookup_lt_Some in Hlookup.
    rewrite Hmove by (rewrite Hi; unfold len; lia).
    change (Some <$> []) with (@nil elem). rewrite splice_in_nil.
    repeat case_match; (eexists; split; [reflexivity |]); simpl;
      done || by apply set_get_same.
Qed.

End Handlers.

(** The trash holds two items dropped there earlier; a third item is dragged
    from ["A"] and released on the trash. *)
Lemma trash_is_empty_after_commit_witness :
  let s := {| items := [("A", [Some "A0"]);
                        (TRASH_DROPPABLE_ID, [Some "B0"; Some "B1"])];
              selectedItems := []; clonedItems := None;
              activeId := Some "A0"; activeContainerRef := Some "A" |} in
  get (items s) TRASH_DROPPABLE_ID = Some [Some "B0"; Some "B1"]
  ∧ ∃ s', onDragEnd arrayMove_spec s
            (Some (mkOver TRASH_DROPPABLE_ID (mkRect 0 0 0 0 0 0))) = Some s'
          ∧ get (items s') TRASH_DROPPABLE_ID = Some []
          ∧ activeId s' = None.
Proof.
  intros s. split; [reflexivity|].
  apply (trash_is_empty_after_commit arrayMove_spec s); reflexivity.
Defined.

(** ["A1"] is dragged from ["A"] over the surface of the empty container
    ["B"]. *)
Lemma live_move_onto_surface_appends_witness :
  let s := {| items := [("A", [Some "A0"; Some "A1"]); ("B", [])];
              selectedItems := []; clonedItems := None;
              activeId := Some "A1"; activeContainerRef := Some "A" |} in
  ∃ s', onDragOver s (Some (mkOver "B" (mkRect 0 0 0 0 0 0))) (mkRect 0 0 0 0 0 0)
        = Some s'
        ∧ get (items s') "B" = Some ([] ++ [Some "A1"])
        ∧ get (items s') "A"
          = Some (filter (λ item, item ≠ Some "A1") [Some "A0"; Some "A1"])
        ∧ activeContainerRef s' = Some "B".
Proof.
  intros s.
  apply (live_move_onto_surface_appends s _ _ "A1" "A" "B");
    try reflexivity; try discriminate.
  - apply list_elem_of_further, list_elem_of_here.
  - apply not_elem_of_nil.
Defined.

(** ** Gestures *)

Lemma reduce_nil {A B} (f : B → A → option B) init : reduce f [] init = Some init.
Proof. done. Qed.

Lemma reduce_cons {A B} (f : B → A → option B) x l init :
  reduce f (x :: l) init = ret ← f init x; reduce f l ret.
Proof.
  unfold reduce. simpl. destruct (f init x) as [ret|]; simpl; [done|].
  induction l as [|y l IH]; [done|]. simpl. apply IH.
Qed.

(** The steps of the [reduce] of [onDragStart] keep the containers of the
    mapping. *)
Lemma pickUp_keys items0 active ret selectedItem ret' :
  pickUp items0 active ret selectedItem = Some ret' → keys ret' = keys ret.
Proof.
  unfold pickUp.
  destruct (decide (selectedItem = active)); [by intros [= <-]|].
  destruct (findContainer items0 selectedItem) as [c|] eqn:Hc; [|by intros [= <-]].
  destruct (truthy (Some c)); simpl; [|by intros [= <-]].
  destruct (get ret c) as [l|] eqn:Hget; simpl; [|done].
  intros [= <-]. apply keys_set_present. by eapply get_Some_key.
Qed.

Lemma reduce_pickUp_keys items0 active selected ret ret' :
  reduce (pickUp items0 active) selected ret = Some ret' → keys ret' = keys ret.
Proof.
  revert ret. induction selected as [|x selected IH]; intros ret.
  - by intros [= <-].
  - rewrite reduce_cons.
    destruct (pickUp items0 active ret x) as [ret1|] eqn:Hstep; simpl; [|done].
    intros Hrest. rewrite (IH _ Hrest). by eapply pickUp_keys.
Qed.

(** A step raises only for a selected item whose name is inherited. *)
Lemma pickUp_returns items0 active ret selectedItem :
  keys ret = keys items0 → selectedItem ∉ objectPrototypeNames →
  is_Some (pickUp items0 active ret selectedItem).
Proof.
  intros Hkeys Hplain. unfold pickUp.
  destruct (decide (selectedItem = active)); [by eexists|].
  destruct (findContainer items0 selectedItem) as [c|] eqn:Hc; [|by eexists].
  destruct (truthy (Some c)); simpl; [|by eexists].
  assert (c ∈ keys ret) as Hin
    by (rewrite Hkeys; by eapply findContainer_key).
  destruct (proj2 (get_is_Some ret c) Hin) as [l ->]. by eexists.
Qed.

Lemma reduce_pickUp_returns items0 active selected ret :
  keys ret = keys items0 →
  Forall (λ item, item ∉ objectPrototypeNames) selected →
  is_Some (reduce (pickUp items0 active) selected ret).
Proof.
  revert ret. induction selected as [|x selected IH]; intros ret Hkeys Hplain.
  - by eexists.
  - rewrite reduce_cons. apply Forall_cons in Hplain as [Hx Hplain].
    destruct (pickUp_returns items0 active ret x Hkeys Hx) as [ret1 Hstep].
    rewrite Hstep. simpl. apply IH; [|done].
    by rewrite (pickUp_keys _ _ _ _ _ Hstep).
Qed.

(** When [onDragStart] returns, it has recorded the active item, the
    snapshot and the tracking container, and has kept the containers of the
    mapping. *)
Lemma onDragStart_fields s active s' :
  onDragStart s active = Some s' →
  clonedItems s' = Some (items s)
  ∧ activeId s' = Some active
  ∧ activeContainerRef s' = findContainer (items s) active
  ∧ keys (items s') = keys (items s).
Proof.
  unfold onDragStart.
  destruct (bool_decide (len (selectedItems s) > 0)).
  - destruct (reduce (pickUp (items s) active) (selectedItems s) (items s))
      as [ret|] eqn:Hreduce; simpl; [|done].
    intros [= <-]. simpl. split_and!; try done.
    by eapply reduce_pickUp_keys.
  - simpl. by intros [= <-].
Qed.

(** [onDragStart] returns when no selected item has an inherited name. *)
Lemma onDragStart_returns s active :
  Forall (λ item, item ∉ objectPrototypeNames) (selectedItems s) →
  is_Some (onDragStart s active).
Proof.
  intros Hplain. unfold onDragStart.
  destruct (bool_decide (len (selectedItems s) > 0)).
  - destruct (reduce_pickUp_returns (items s) active (selectedItems s) (items s))
      as [ret ->]; [done..|].
    simpl. by eexists.
  - simpl. by eexists.
Qed.

Lemma onDragStart_tracked s active s' :
  active ∉ objectPrototypeNames →
  onDragStart s active = Some s' → tracked s'.
Proof.
  intros Hplain Hstart.
  destruct (onDragStart_fields s active s' Hstart) as (_ & _ & Href & Hkeys).
  intros c Hc. rewrite Hkeys. rewrite Href in Hc.
  by eapply findContainer_key.
Qed.

(** When [onDragOver] returns, it has kept the snapshot, the selection, the
    active item and the containers of the mapping, and the tracking
    container is a container of the mapping if it was one. *)
Lemma onDragOver_fields s over draggingRect s' :
  onDragOver s over draggingRect = Some s' →
  clonedItems s' = clonedItems s
  ∧ selectedItems s' = selectedItems s
  ∧ activeId s' = activeId s
  ∧ keys (items s') = keys (items s)
  ∧ (tracked s → tracked s').
Proof.
  unfold onDragOver.
  destruct over as [over|]; [|by intros [= <-]].
  destruct (findContainer (items s) (over_id over)) as [oc|] eqn:Hoc;
    [|by intros [= <-]].
  destruct (activeContainerRef s) as [ac|] eqn:Hac; [|by intros [= <-]].
  destruct (activeId s) as [active|] eqn:Ha; [|by intros [= <-]].
  destruct (_ || _); [by intros [= <-]|].
  case_bool_decide; [|by intros [= <-]].
  destruct (get (items s) ac) as [activeItems|] eqn:HA; simpl; [|done].
  destruct (get (items s) oc) as [overItems|] eqn:HO; simpl; [|done].
  apply get_Some_key in HA, HO.
  assert (∀ l1 l2, keys (set (set (items s) ac l1) oc l2) = keys (items s))
    as Hkeys.
  { intros. rewrite keys_set_present; rewrite keys_set_present; done. }
  intros [= <-]. simpl. split_and!; try done.
  intros _ c. simpl. intros [= <-]. by rewrite Hkeys.
Qed.

(** [onDragOver] returns when the tracking container is a container of the
    mapping and the droppable under the pointer has no inherited name. *)
Lemma onDragOver_returns s over draggingRect :
  tracked s →
  (∀ o, over = Some o → over_id o ∉ objectPrototypeNames) →
  is_Some (onDragOver s over draggingRect).
Proof.
  intros Htracked Hplain. unfold onDragOver.
  destruct over as [over|]; [|by eexists].
  destruct (findContainer (items s) (over_id over)) as [oc|] eqn:Hoc; [|by eexists].
  destruct (activeContainerRef s) as [ac|] eqn:Hac; [|by eexists].
  destruct (activeId s) as [active|] eqn:Ha; [|by eexists].
  destruct (_ || _); [by eexists|].
  case_bool_decide; [|by eexists].
  pose proof (findContainer_key _ _ _ Hoc (Hplain _ eq_refl)) as Hoc_in.
  pose proof (Htracked ac Hac) as Hac_in.
  destruct (proj2 (get_is_Some _ _) Hac_in) as [activeItems ->].
  destruct (proj2 (get_is_Some _ _) Hoc_in) as [overItems ->]. by eexists.
Qed.

Section Gestures.

Variable arrayMove : list elem → Z → Z → list elem.

Lemma run_app s events events' :
  run arrayMove s (events ++ events')
  = s' ← run arrayMove s events; run arrayMove s' events'.
Proof.
  revert s. induction events as [|e events IH]; intros s; simpl; [done|].
  destruct (handle arrayMove s e) as [s1|]; simpl; [apply IH | done].
Qed.

(** A sequence of move events leaves the snapshot where it is. *)
Lemma run_moves_keep_snapshot s (moves : list (option Over * ClientRect)) s' :
  run arrayMove s (map (λ m, DragOver m.1 m.2) moves) = Some s' →
  clonedItems s' = clonedItems s.
Proof.
  revert s. induction moves as [|[over rect] moves IH]; intros s; simpl.
  - by intros [= <-].
  - destruct (onDragOver s over rect) as [s1|] eqn:Hover; simpl; [|done].
    intros Hrun. rewrite (IH _ Hrun).
    by destruct (onDragOver_fields _ _ _ _ Hover) as (-> & _).
Qed.

(** No move raises when the tracking container is a container of the mapping
    and no droppable under the pointer has an inherited name. *)
Lemma run_moves_return s (moves : list (option Over * ClientRect)) :
  tracked s →
  Forall (λ m, ∀ o, m.1 = Some o → over_id o ∉ objectPrototypeNames) moves →
  ∃ s', run arrayMove s (map (λ m, DragOver m.1 m.2) moves) = Some s'
        ∧ tracked s'.
Proof.
  revert s. induction moves as [|[over rect] moves IH]; intros s Htracked Hplain.
  - by exists s.
  - simpl. apply Forall_cons in Hplain as [Hover Hplain].
    destruct (onDragOver_returns s over rect Htracked Hover) as [s1 Hs1].
    rewrite Hs1. simpl. apply IH; [|done].
    by apply (onDragOver_fields _ _ _ _ Hs1).
Qed.

(** C2. A gesture that starts, goes through any sequence of moves and is
    cancelled leaves the mapping equal to what it was just before the start:
    whenever the handlers return, the final mapping is the initial one; and
    they do return when neither the dragged item, nor a selected item, nor a
    droppable under the pointer has a name that every object inherits. *)
Theorem cancel_restores_mapping s active
    (moves : list (option Over * ClientRect)) :
  (∀ s', run arrayMove s
           (DragStart active :: map (λ m, DragOver m.1 m.2) moves ++ [DragCancel])
         = Some s' →
         items s' = items s)
  ∧ (active ∉ objectPrototypeNames →
     Forall (λ item, item ∉ objectPrototypeNames) (selectedItems s) →
     Forall (λ m, ∀ o, m.1 = Some o → over_id o ∉ objectPrototypeNames) moves →
     is_Some (run arrayMove s
                (DragStart active :: map (λ m, DragOver m.1 m.2) moves
                 ++ [DragCancel]))).
Proof.
  split.
  - intros s'. simpl.
    destruct (onDragStart s active) as [s1|] eqn:Hstart; simpl; [|done].
    rewrite run_app.
    destruct (run arrayMove s1 _) as [s2|] eqn:Hmoves; simpl; [|done].
    intros [= <-]. simpl.
    rewrite (run_moves_keep_snapshot _ _ _ Hmoves).
    by destruct (onDragStart_fields _ _ _ Hstart) as (-> & _).
  - intros Hactive Hselected Hmoves. simpl.
    destruct (onDragStart_returns s active Hselected) as [s1 Hstart].
    rewrite Hstart. simpl. rewrite run_app.
    destruct (run_moves_return s1 moves) as (s2 & -> & _); [|done|].
    { by eapply onDragStart_tracked. }
    simpl. by eexists.
Qed.

(** Each handler keeps the selection free of duplicates. *)
Lemma handle_selection_NoDup s e s' :
  NoDup (selectedItems s) → handle arrayMove s e = Some s' →
  NoDup (selectedItems s').
Proof.
  intros Hnodup. destruct e as [id shiftKey|nodeName parentNode|active
                                  |over rect|over|]; simpl.
  - intros [= <-]. unfold onSelectionChanged, isItemSelected.
    destruct shiftKey; [|by constructor].
    case_bool_decide as Hin; simpl.
    + by apply NoDup_filter.
    + apply NoDup_app. split_and!; [done| |apply NoDup_singleton].
      intros x Hx ->%list_elem_of_singleton. done.
  - unfold clearSelection. intros Hclick.
    repeat case_match; simplify_option_eq; done || by constructor.
  - unfold onDragStart. intros Hstart.
    destruct (if bool_decide (len (selectedItems s) > 0) then _ else _)
      as [newItems|]; simplify_eq/=.
    unfold isItemSelected. destruct (negb (bool_decide (len _ = 0))); simpl; [|done].
    case_bool_decide as Hin; simpl; [done|].
    apply NoDup_app. split_and!; [done| |apply NoDup_singleton].
    intros x Hx ->%list_elem_of_singleton. done.
  - unfold onDragOver. intros Hover.
    repeat case_match; simplify_option_eq; done.
  - intros Hend.
    by rewrite (onDragEnd_selectedItems arrayMove _ _ _ Hend).
  - by intros [= <-].
Qed.

(** C10. The selection never holds an identifier twice: every handler keeps
    a duplicate-free selection duplicate-free, so that after any sequence of
    events from the first render, where the selection is empty, the selection
    has no duplicate. *)
Theorem selection_has_no_duplicate :
  (∀ s e s', NoDup (selectedItems s) → handle arrayMove s e = Some s' →
             NoDup (selectedItems s'))
  ∧ (∀ parentItems events s',
       run arrayMove (initialState parentItems) events = Some s' →
       NoDup (selectedItems s')).
Proof.
  split; [apply handle_selection_NoDup|].
  intros parentItems events.
  assert (NoDup (selectedItems (initialState parentItems))) as Hinit
    by constructor.
  revert Hinit. generalize (initialState parentItems).
  induction events as [|e events IH]; intros s Hs s'; simpl.
  - by intros [= <-].
  - destruct (handle arrayMove s e) as [s1|] eqn:He; simpl; [|done].
    apply IH. by eapply handle_selection_NoDup.
Qed.

End Gestures.

(** ** The scenarios of the spec, on the default mapping *)

Section Scenarios.

Variable arrayMove : list elem → Z → Z → list elem.

(** Moving an element to the index it already has leaves the array as it
    is: all that the multi-item scenario needs of [arrayMove]. *)
Hypothesis arrayMove_same_index :
  ∀ l i, 0 ≤ i < len l → arrayMove l i i = l.

(** C7. Nothing is selected; ["A1"] is dragged over ["B1"], which puts it at
    index 1 of ["B"], and is released there: the droppable at index 1 of
    ["B"] is then ["A1"] itself. At the end ["A"] is [A0, A2] and ["B"] is
    [B0, A1, B1, B2]. *)
Theorem single_move_scenario (overRect draggingRect endRect : ClientRect) :
  ∃ s1 s2,
    run arrayMove (initialState (defaultItems 3))
      [DragStart "A1"; DragOver (Some (mkOver "B1" overRect)) draggingRect]
    = Some s1
    ∧ findContainer (items s1) "A1" = Some "B"
    ∧ getIndex (items s1) "A1" = Some 1
    ∧ onDragEnd arrayMove s1 (Some (mkOver "A1" endRect)) = Some s2
    ∧ get (items s2) "A" = Some [Some "A0"; Some "A2"]
    ∧ get (items s2) "B" = Some [Some "B0"; Some "A1"; Some "B1"; Some "B2"].
Proof. do 2 eexists. split_and!; reflexivity. Qed.

(** C6, as the code has it. With ["A0"] and ["A2"] selected, in either
    order, the start of a drag on ["A1"] leaves ["A"] as [A1] and ["B"] as
    it was. ["A1"] is then dragged over ["B0"], which puts it at index 0 of
    ["B"], and released there: ["A"] is empty and ["B"] is ["A1"], then the
    two selected items in the order in which they were selected, then
    [B0, B1, B2]. *)
Theorem multi_item_move_scenario (first second : string)
    (overRect draggingRect endRect : ClientRect) :
  (first, second) = ("A0", "A2") ∨ (first, second) = ("A2", "A0") →
  ∃ s1 s2 s3 s4,
    run arrayMove (initialState (defaultItems 3))
      [ItemClick first true; ItemClick second true] = Some s1
    ∧ selectedItems s1 = [first; second]
    ∧ onDragStart s1 "A1" = Some s2
    ∧ get (items s2) "A" = Some [Some "A1"]
    ∧ get (items s2) "B" = Some [Some "B0"; Some "B1"; Some "B2"]
    ∧ onDragOver s2 (Some (mkOver "B0" overRect)) draggingRect = Some s3
    ∧ findContainer (items s3) "A1" = Some "B"
    ∧ getIndex (items s3) "A1" = Some 0
    ∧ onDragEnd arrayMove s3 (Some (mkOver "A1" endRect)) = Some s4
    ∧ get (items s4) "A" = Some []
    ∧ get (items s4) "B"
      = Some [Some "A1"; Some first; Some second;
              Some "B0"; Some "B1"; Some "B2"].
Proof.
  intros [[= -> ->]|[= -> ->]].
  - do 3 eexists.
    exists {| items := [("A", []);
                         ("B", [Some "A1"; Some "A0"; Some "A2";
                                Some "B0"; Some "B1"; Some "B2"]);
                         ("C", [Some "C0"; Some "C1"; Some "C2"]);
                         (TRASH_DROPPABLE_ID, [])];
              selectedItems := ["A0"; "A2"; "A1"];
              clonedItems := Some (defaultItems 3);
              activeId := None;
              activeContainerRef := Some "B" |}.
    split_and!; try reflexivity.
    unfold onDragEnd. simpl.
    rewrite arrayMove_same_index by (by vm_compute).
    reflexivity.
  - do 3 eexists.
    exists {| items := [("A", []);
                         ("B", [Some "A1"; Some "A2"; Some "A0";
                                Some "B0"; Some "B1"; Some "B2"]);
                         ("C", [Some "C0"; Some "C1"; Some "C2"]);
                         (TRASH_DROPPABLE_ID, [])];
              selectedItems := ["A2"; "A0"; "A1"];
              clonedItems := Some (defaultItems 3);
              activeId := None;
              activeContainerRef := Some "B" |}.
    split_and!; try reflexivity.
    unfold onDragEnd. simpl.
    rewrite arrayMove_same_index by (by vm_compute).
    reflexivity.
Qed.

End Scenarios.

(** ** The identifiers of the mapping *)

#[global] Instance ids_Permutation : Proper ((≡ₚ) ==> (≡ₚ)) ids.
Proof. intros l1 l2 Hl. unfold ids. by rewrite Hl. Qed.

Lemma ids_app l1 l2 : ids (l1 ++ l2) = ids l1 ++ ids l2.
Proof. apply omap_app. Qed.

Lemma ids_Some (l : list string) : ids (Some <$> l) = l.
Proof. induction l as [|x l IH]; [done|]. unfold ids. cbn. f_equal. apply IH. Qed.

Lemma elem_of_ids l x : x ∈ ids l ↔ Some x ∈ l.
Proof.
  unfold ids. rewrite list_elem_of_omap. split.
  - intros (y & Hy & Heq). simpl in Heq. by subst y.
  - intros Hx. by exists (Some x).
Qed.

Lemma ids_cons_Some x l : ids (Some x :: l) = x :: ids l.
Proof. done. Qed.

Lemma ids_cons_None l : ids (None :: l) = ids l.
Proof. done. Qed.

Lemma ids_without a l : ids (without a l) = filter (λ x, x ≠ a) (ids l).
Proof.
  unfold without. induction l as [|[x|] l IH]; [done| |].
  - destruct (decide (x = a)) as [->|Hne].
    + rewrite filter_cons_False, ids_cons_Some by naive_solver.
      by rewrite filter_cons_False by naive_solver.
    + rewrite filter_cons_True, !ids_cons_Some by naive_solver.
      rewrite filter_cons_True by done. by rewrite IH.
  - by rewrite filter_cons_True, !ids_cons_None by done.
Qed.

(** Taking an array apart at an index and putting a block in between. *)
Lemma ids_insert_block l n block :
  ids (take n l ++ block ++ drop n l) ≡ₚ ids block ++ ids l.
Proof.
  rewrite !ids_app. rewrite <- (take_drop n l) at 3. rewrite ids_app.
  by rewrite (assoc (++)), (comm (++) (ids (take n l))), <- (assoc (++)).
Qed.

Lemma ids_insert_one l n (x : elem) :
  ids (take n l ++ x :: drop n l) ≡ₚ ids [x] ++ ids l.
Proof. apply (ids_insert_block l n [x]). Qed.

Lemma allIds_cons k l (rest : Items) : allIds ((k, l) :: rest) = ids l ++ allIds rest.
Proof. done. Qed.

Lemma elem_of_allIds (items : Items) x :
  x ∈ allIds items ↔ ∃ k l, (k, l) ∈ items ∧ Some x ∈ l.
Proof.
  unfold allIds. rewrite list_elem_of_bind. split.
  - intros ([k l] & Hx & Hin). exists k, l. by rewrite <- elem_of_ids.
  - intros (k & l & Hin & Hx). exists (k, l). by rewrite elem_of_ids.
Qed.

Lemma get_elem_of (items : Items) k l : get items k = Some l → (k, l) ∈ items.
Proof.
  induction items as [|[k0 l0] rest IH]; simpl; [done|].
  destruct (decide (k0 = k)) as [->|Hne].
  - intros [= ->]. left.
  - intros Hget. right. by apply IH.
Qed.

Lemma elem_of_get (items : Items) k l :
  NoDup (keys items) → (k, l) ∈ items → get items k = Some l.
Proof.
  unfold keys. induction items as [|[k0 l0] rest IH]; simpl.
  - by intros _ ?%elem_of_nil.
  - intros [Hnot Hnodup]%NoDup_cons [Heq|Hin]%elem_of_cons.
    + simplify_eq. by rewrite decide_True.
    + rewrite decide_False; [by apply IH|].
      intros ->. apply Hnot. apply list_elem_of_fmap. by exists (k, l).
Qed.

(** Replacing the sequence of one container replaces its identifiers and
    leaves those of the other containers. *)
Lemma allIds_set (items : Items) k l :
  get items k = Some l →
  ∃ rest, allIds items ≡ₚ ids l ++ rest
          ∧ ∀ l', allIds (set items k l') ≡ₚ ids l' ++ rest.
Proof.
  induction items as [|[k0 l0] items IH]; simpl; [done|].
  destruct (decide (k0 = k)) as [->|Hne].
  - intros [= ->]. exists (allIds items). by rewrite allIds_cons.
  - intros Hget. destruct (IH Hget) as (rest & Hrest & Hset).
    exists (ids l0 ++ rest). split.
    + rewrite allIds_cons, Hrest. by rewrite !(assoc (++)), (comm (++) (ids l0)).
    + intros l'. rewrite allIds_cons, Hset.
      by rewrite !(assoc (++)), (comm (++) (ids l0)).
Qed.

Lemma allIds_set_absent (items : Items) k l :
  k ∉ keys items → allIds (set items k l) = allIds items ++ ids l.
Proof.
  unfold keys. induction items as [|[k0 l0] items IH]; simpl.
  - intros _. unfold allIds. simpl. by rewrite app_nil_r.
  - intros [Hne Hnot]%not_elem_of_cons. rewrite decide_False by done.
    rewrite !allIds_cons, IH by done. by rewrite (assoc (++)).
Qed.

(** Two containers at once, as [onDragOver] updates them. *)
Lemma allIds_set_two (items : Items) k1 l1 k2 l2 :
  k1 ≠ k2 → get items k1 = Some l1 → get items k2 = Some l2 →
  ∃ rest, allIds items ≡ₚ ids l1 ++ ids l2 ++ rest
          ∧ ∀ l1' l2', allIds (set (set items k1 l1') k2 l2')
                       ≡ₚ ids l1' ++ ids l2' ++ rest.
Proof.
  intros Hne H1 H2.
  destruct (allIds_set items k1 l1 H1) as (rest1 & Hrest1 & Hset1).
  assert (∀ l1', ∃ rest, allIds (set items k1 l1') ≡ₚ ids l2 ++ rest
            ∧ ∀ l2', allIds (set (set items k1 l1') k2 l2') ≡ₚ ids l2' ++ rest)
    as Hstep.
  { intros l1'. apply allIds_set. by rewrite get_set_ne. }
  destruct (Hstep []) as (rest & Hrest & _).
  rewrite Hset1 in Hrest. change (ids [] ++ rest1) with rest1 in Hrest.
  exists rest. split.
  - by rewrite Hrest1, Hrest.
  - intros l1' l2'. destruct (Hstep l1') as (rest' & Hrest' & Hset').
    rewrite Hset1, Hrest in Hrest'.
    rewrite (assoc (++)), (comm (++) (ids l1')), <- (assoc (++)) in Hrest'.
    apply Permutation_app_inv_l in Hrest'.
    rewrite Hset', <- Hrest'.
    by rewrite !(assoc (++)), (comm (++) (ids l1')).
Qed.

(** ** Picking up the selected items *)

Lemma filter_ext_elem {A} (P1 P2 : A → Prop)
    `{!∀ x, Decision (P1 x), !∀ x, Decision (P2 x)} (l : list A) :
  (∀ x, x ∈ l → P1 x ↔ P2 x) → filter P1 l = filter P2 l.
Proof.
  induction l as [|a l IH]; intros Hiff; [done|].
  assert (filter P1 l = filter P2 l) as Htl
    by (apply IH; intros x Hx; apply Hiff; by right).
  destruct (decide (P1 a)) as [Ha|Ha].
  - rewrite !filter_cons_True; [by rewrite Htl | | done].
    apply Hiff; [left | done].
  - rewrite !filter_cons_False; [done | | done].
    intros Ha2. apply Ha, Hiff; [left | done].
Qed.

Lemma filter_all {A} (P : A → Prop) `{!∀ x, Decision (P x)} (l : list A) :
  (∀ x, x ∈ l → P x) → filter P l = l.
Proof.
  induction l as [|a l IH]; intros Hall; [done|].
  rewrite filter_cons_True by (apply Hall; left).
  f_equal. apply IH. intros x Hx. apply Hall. by right.
Qed.

Lemma dropIds_cons removed k l (items : Items) :
  dropIds removed ((k, l) :: items)
  = (k, filter (λ e : elem, e ∉ Some <$> removed) l) :: dropIds removed items.
Proof. done. Qed.

Lemma dropIds_nil (items : Items) : dropIds [] items = items.
Proof.
  induction items as [|[k l] items IH]; [done|].
  rewrite dropIds_cons, IH. f_equal. f_equal.
  apply filter_all. intros e _. apply not_elem_of_nil.
Qed.

Lemma keys_dropIds removed (items : Items) :
  keys (dropIds removed items) = keys items.
Proof.
  unfold keys. induction items as [|[k l] items IH]; [done|].
  rewrite dropIds_cons, !fmap_cons. f_equal. apply IH.
Qed.

Lemma allIds_dropIds removed (items : Items) :
  allIds (dropIds removed items) = filter (λ x, x ∉ removed) (allIds items).
Proof.
  induction items as [|[k l] items IH]; [done|].
  rewrite dropIds_cons, !allIds_cons, filter_app, IH. f_equal.
  clear. induction l as [|[x|] l IH]; [done| |].
  - destruct (decide (x ∈ removed)) as [Hx|Hx].
    + rewrite filter_cons_False, ids_cons_Some.
      * by rewrite filter_cons_False by naive_solver.
      * intros Hnot. apply Hnot. apply list_elem_of_fmap. by exists x.
    + rewrite filter_cons_True, !ids_cons_Some.
      * rewrite filter_cons_True by done. by rewrite IH.
      * intros (y & [= ->] & Hy)%list_elem_of_fmap. done.
  - rewrite filter_cons_True, !ids_cons_None; [done|].
    by intros (y & ? & _)%list_elem_of_fmap.
Qed.

(** An identifier that is in no container is not affected. *)
Lemma dropIds_absent removed x (items : Items) :
  x ∉ allIds items → dropIds (removed ++ [x]) items = dropIds removed items.
Proof.
  induction items as [|[k l] items IH]; [done|].
  rewrite allIds_cons. intros [Hl Hrest]%not_elem_of_app.
  rewrite !dropIds_cons, IH by done. f_equal. f_equal.
  apply filter_ext_elem. intros e He. rewrite fmap_app, not_elem_of_app.
  split; [by intros [? _]|]. intros Hr. split; [done|].
  intros ->%list_elem_of_singleton. by apply Hl, elem_of_ids.
Qed.

Lemma without_dropIds removed x (l : list elem) :
  without x (filter (λ e : elem, e ∉ Some <$> removed) l)
  = filter (λ e : elem, e ∉ Some <$> (removed ++ [x])) l.
Proof.
  unfold without. rewrite list_filter_filter. apply list_filter_iff.
  intros e. rewrite fmap_app, not_elem_of_app. simpl.
  rewrite list_elem_of_singleton. split.
  - intros [Hne Hr]. split; [done|]. by intros ->.
  - intros [Hr Hne]. split; [|done]. by intros ->.
Qed.

(** An identifier found in a container is taken out of it, and it was in no
    other container. *)
Lemma dropIds_found removed x c l0 (items : Items) :
  NoDup (keys items) → NoDup (allIds items) →
  (c, l0) ∈ items → Some x ∈ l0 →
  (l ← get (dropIds removed items) c;
   Some (set (dropIds removed items) c (without x l)))
  = Some (dropIds (removed ++ [x]) items).
Proof.
  unfold keys. induction items as [|[k l] items IH].
  - by intros _ _ ?%elem_of_nil.
  - rewrite allIds_cons, !dropIds_cons. simpl.
    intros [Hk Hkeys]%NoDup_cons (Hl & Hdisj & Hrest)%NoDup_app Hin Hx.
    apply elem_of_cons in Hin as [Heq|Hin].
    + simplify_eq. rewrite decide_True by done. simpl.
      rewrite decide_True by done. rewrite without_dropIds.
      f_equal. f_equal. symmetry. apply dropIds_absent.
      apply Hdisj. by apply elem_of_ids.
    + assert (k ≠ c) as Hne.
      { intros ->. apply Hk. apply list_elem_of_fmap. by exists (c, l0). }
      rewrite decide_False by done.
      specialize (IH Hkeys Hrest Hin Hx).
      destruct (get (dropIds removed items) c) as [l1|]; simpl in *; [|done].
      rewrite decide_False by done. simplify_eq. rewrite IH.
      f_equal. f_equal. f_equal.
      apply filter_ext_elem. intros e He. rewrite fmap_app, not_elem_of_app.
      split; [|by intros [? _]]. intros Hr. split; [done|].
      intros ->%list_elem_of_singleton.
      apply (Hdisj x); [by apply elem_of_ids|].
      apply elem_of_allIds. by exists c, l0.
Qed.

(** [findContainer] on an identifier that is neither the name of a container
    nor an inherited name. *)
Lemma findContainer_item (items : Items) x :
  x ∉ keys items → x ∉ objectPrototypeNames →
  match findContainer items x with
  | Some c => ∃ l, (c, l) ∈ items ∧ Some x ∈ l
  | None => x ∉ allIds items
  end.
Proof.
  intros Hx Hplain. unfold findContainer.
  rewrite (proj2 (has_false items x)) by done.
  destruct (list_find (λ kv, includes kv.2 x = true) items)
    as [[i [c l]]|] eqn:Hfind; simpl.
  - apply list_find_Some in Hfind as (Hi & Hincl & _).
    exists l. split; [by eapply list_elem_of_lookup_2|].
    simpl in Hincl. unfold includes in Hincl. by apply bool_decide_eq_true in Hincl.
  - apply list_find_None in Hfind. rewrite Forall_forall in Hfind.
    intros (k & l & Hin & Hl)%elem_of_allIds.
    apply (Hfind _ Hin). simpl. unfold includes. by apply bool_decide_eq_true.
Qed.

Section PickUp.

Variables (items0 : Items) (active : string).
Hypothesis keys_NoDup : NoDup (keys items0).
Hypothesis keys_nonempty : "" ∉ keys items0.
Hypothesis ids_NoDup : NoDup (allIds items0).

(** One step of the [reduce], on a selected item that is not the name of a
    container: the active item is skipped, an item with an inherited name
    raises, and any other item is taken out of its container. *)
Lemma pickUp_dropIds removed x :
  x ∉ keys items0 →
  pickUp items0 active (dropIds removed items0) x
  = if decide (x = active) then Some (dropIds removed items0)
    else if decide (x ∈ objectPrototypeNames) then None
    else Some (dropIds (removed ++ [x]) items0).
Proof.
  intros Hx. unfold pickUp. destruct (decide (x = active)); [done|].
  destruct (decide (x ∈ objectPrototypeNames)) as [Hproto|Hplain].
  - unfold findContainer. rewrite (proj2 (has_true items0 x)) by auto.
    rewrite truthy_Some by (by apply objectPrototypeNames_nonempty). simpl.
    destruct (get (dropIds removed items0) x) as [l|] eqn:Hget; [|done].
    apply get_Some_key in Hget. by rewrite keys_dropIds in Hget.
  - pose proof (findContainer_item items0 x Hx Hplain) as Hfind.
    destruct (findContainer items0 x) as [c|] eqn:Hc.
    + destruct Hfind as (l & Hin & Hl).
      rewrite truthy_Some; simpl.
      * by apply dropIds_found with l.
      * by eapply findContainer_nonempty.
    + simpl. by rewrite dropIds_absent.
Qed.

(** The whole [reduce], when it returns. *)
Lemma reduce_pickUp_dropIds selected removed ret :
  (∀ x, x ∈ selected → x ∉ keys items0) →
  reduce (pickUp items0 active) selected (dropIds removed items0) = Some ret →
  ret = dropIds (removed ++ filter (λ x, x ≠ active) selected) items0.
Proof.
  revert removed. induction selected as [|x selected IH]; intros removed Hsel.
  - rewrite reduce_nil, app_nil_r. by intros [= <-].
  - rewrite reduce_cons, pickUp_dropIds by (apply Hsel; left).
    assert (∀ y, y ∈ selected → y ∉ keys items0) as Hsel'
      by (intros y Hy; apply Hsel; by right).
    destruct (decide (x = active)) as [->|Hne]; simpl.
    + rewrite filter_cons_False by naive_solver. by apply IH.
    + rewrite filter_cons_True by done.
      destruct (decide (x ∈ objectPrototypeNames)); simpl; [done|].
      intros Hrest. rewrite (IH _ Hsel' Hrest). by rewrite <- (assoc (++)).
Qed.

(** It returns when no selected item has an inherited name. *)
Lemma reduce_pickUp_dropIds_returns selected removed :
  (∀ x, x ∈ selected → (x ∉ keys items0) ∧ (x ∉ objectPrototypeNames)) →
  reduce (pickUp items0 active) selected (dropIds removed items0)
  = Some (dropIds (removed ++ filter (λ x, x ≠ active) selected) items0).
Proof.
  intros Hsel.
  destruct (reduce_pickUp_returns items0 active selected (dropIds removed items0))
    as [ret Hret].
  - apply keys_dropIds.
  - apply Forall_forall. intros x Hx. by apply Hsel.
  - rewrite Hret. f_equal. apply (reduce_pickUp_dropIds _ _ _ (λ x Hx, proj1 (Hsel x Hx)) Hret).
Qed.

End PickUp.

(** ** The invariant of the reachable states *)

Lemma filter_out_Permutation (l : list string) a :
  NoDup l → a ∈ l → filter (λ x, x ≠ a) l ++ [a] ≡ₚ l.
Proof.
  intros Hl Ha. apply NoDup_Permutation; [|done|].
  - apply NoDup_app. split_and!.
    + by apply NoDup_filter.
    + intros x [Hx _]%list_elem_of_filter ->%list_elem_of_singleton. done.
    + apply NoDup_singleton.
  - intros x. rewrite elem_of_app, list_elem_of_filter, list_elem_of_singleton.
    split; [by intros [[_ ?]| ->] |].
    intros Hx. destruct (decide (x = a)); [by right | by left].
Qed.

Lemma filter_eq_absent (l : list string) a :
  a ∉ l → filter (λ x, x = a) l = [].
Proof.
  induction l as [|x l IH]; [done|].
  intros [Hne Hl]%not_elem_of_cons.
  rewrite filter_cons_False by (by intros ->). by apply IH.
Qed.

Lemma NoDup_occurrences (l : list string) a :
  NoDup l → (length (filter (λ x, x = a) l) ≤ 1)%nat.
Proof.
  induction 1 as [|x l Hx Hl IH]; [simpl; lia|].
  destruct (decide (x = a)) as [->|Hne].
  - rewrite filter_cons_True by done. simpl.
    rewrite filter_eq_absent by done. simpl. lia.
  - by rewrite filter_cons_False by done.
Qed.

Lemma ids_move_out (activeItems : list elem) active :
  NoDup (ids activeItems) →
  ids (without active activeItems)
  ++ ids [at_index activeItems (indexOf activeItems active)]
  ≡ₚ ids activeItems.
Proof.
  intros Hnodup. rewrite at_index_indexOf, ids_without. unfold includes.
  case_bool_decide as Hin.
  - apply filter_out_Permutation; [done | by apply elem_of_ids].
  - change (ids [None]) with (@nil string). rewrite app_nil_r.
    rewrite filter_all; [done|]. intros x Hx ->. by apply Hin, elem_of_ids.
Qed.

(** A live move keeps the identifiers of the mapping: the active item
    leaves one container and enters another. *)
Lemma onDragOver_ids s over draggingRect s' :
  NoDup (allIds (items s)) →
  onDragOver s over draggingRect = Some s' →
  allIds (items s') ≡ₚ allIds (items s).
Proof.
  intros Hnodup. unfold onDragOver.
  destruct over as [over|]; [|by intros [= <-]].
  destruct (findContainer (items s) (over_id over)) as [oc|]; [|by intros [= <-]].
  destruct (activeContainerRef s) as [ac|]; [|by intros [= <-]].
  destruct (activeId s) as [active|]; [|by intros [= <-]].
  destruct (_ || _); [by intros [= <-]|].
  case_bool_decide as Hne; [|by intros [= <-]].
  destruct (get (items s) ac) as [activeItems|] eqn:HA; simpl; [|done].
  destruct (get (items s) oc) as [overItems|] eqn:HO; simpl; [|done].
  intros [= <-]. simpl.
  destruct (allIds_set_two (items s) ac activeItems oc overItems Hne HA HO)
    as (rest & Hrest & Hset).
  rewrite Hset, Hrest.
  match goal with
  | |- context [slice overItems 0 ?n] =>
      assert (0 ≤ n) as Hn;
      [ pose proof (indexOf_bounds overItems (over_id over));
        case_bool_decide; [destruct (_ && _); lia | unfold len; lia]
      | rewrite (slice_prefix _ n Hn), (slice_suffix _ n Hn) ]
  end.
  rewrite ids_insert_one.
  rewrite <- (ids_move_out activeItems active) at 1.
  - by rewrite <- !(assoc (++)).
  - rewrite Hrest in Hnodup. by apply NoDup_app in Hnodup as [? _].
Qed.

Section Reachability.

Variable arrayMove : list elem → Z → Z → list elem.
Variable parentItems : Items.

Hypothesis parentItems_wellFormed : wellFormed parentItems.

(** [arrayMove] reorders: the identifiers of its result are those of its
    argument, each as many times. *)
Hypothesis arrayMove_reorders :
  ∀ l from to, ids (arrayMove l from to) ≡ₚ ids l.

Lemma original_not_key s x :
  Invariant parentItems s → x ∈ allIds parentItems → x ∉ keys (items s).
Proof.
  intros Hinv Hx Hkey.
  destruct parentItems_wellFormed as (_ & _ & _ & Hwf).
  destruct (Hwf x Hx) as [Hnot Htrash].
  apply (inv_keys_known _ _ Hinv) in Hkey.
  apply elem_of_app in Hkey as [Hkey|Hkey%list_elem_of_singleton]; done.
Qed.

Lemma Invariant_init : Invariant parentItems (initialState parentItems).
Proof.
  destruct parentItems_wellFormed as (Hkeys & Hempty & Hids & _).
  split; simpl; try done.
  - by apply list_subseteq_app_l.
  - apply list_subseteq_nil.
  - constructor.
Qed.

Lemma Invariant_setSelectedItems s selected :
  Invariant parentItems s →
  selected ⊆ allIds parentItems → NoDup selected →
  Invariant parentItems (setSelectedItems s selected).
Proof. intros [] ? ?. by split. Qed.

Lemma renderedIds_subseteq (items : Items) : renderedIds items ⊆ allIds items.
Proof.
  unfold renderedIds, allIds. apply sublist_subseteq.
  apply bind_sublist. apply sublist_filter.
Qed.

Lemma Invariant_onSelectionChanged s id shiftKey :
  Invariant parentItems s → id ∈ renderedIds (items s) →
  Invariant parentItems (onSelectionChanged s id shiftKey).
Proof.
  intros Hinv Hid.
  assert (id ∈ allIds parentItems) as Hid'
    by (by apply (inv_ids_original _ _ Hinv), renderedIds_subseteq).
  pose proof (inv_selection_original _ _ Hinv) as Hsel.
  pose proof (inv_selection_NoDup _ _ Hinv) as Hnodup.
  unfold onSelectionChanged, isItemSelected.
  destruct shiftKey.
  - case_bool_decide as Hin; apply Invariant_setSelectedItems; try done.
    + intros x [_ Hx]%list_elem_of_filter. by apply Hsel.
    + by apply NoDup_filter.
    + intros x [Hx| ->%list_elem_of_singleton]%elem_of_app; [by apply Hsel | done].
    + apply NoDup_app. split_and!; [done| |apply NoDup_singleton].
      intros x Hx ->%list_elem_of_singleton. done.
  - apply Invariant_setSelectedItems; [done|apply list_subseteq_nil|constructor].
Qed.

Lemma clearSelection_cases s nodeName parentNode s' :
  clearSelection s nodeName parentNode = Some s' →
  s' = s ∨ s' = setSelectedItems s [].
Proof.
  unfold clearSelection. intros Hclick.
  repeat case_match; simplify_option_eq; auto.
Qed.

Lemma Invariant_clearSelection s nodeName parentNode s' :
  Invariant parentItems s →
  clearSelection s nodeName parentNode = Some s' →
  Invariant parentItems s'.
Proof.
  intros Hinv [->| ->]%clearSelection_cases; [done|].
  apply Invariant_setSelectedItems; [done|apply list_subseteq_nil|constructor].
Qed.

(** What [onDragStart] returns on a state that satisfies the invariant. *)
Lemma onDragStart_items s active s' :
  Invariant parentItems s →
  onDragStart s active = Some s' →
  s' = {| items := dropIds (filter (λ x, x ≠ active) (selectedItems s)) (items s);
          selectedItems :=
            if negb (bool_decide (len (selectedItems s) = 0))
               && negb (isItemSelected s active)
            then selectedItems s ++ [active] else selectedItems s;
          clonedItems := Some (items s);
          activeId := Some active;
          activeContainerRef := findContainer (items s) active |}.
Proof.
  intros Hinv. unfold onDragStart.
  destruct (selectedItems s) as [|x selected] eqn:Hsel.
  - simpl. rewrite dropIds_nil. by intros [= <-].
  - rewrite (bool_decide_eq_true_2 (len (x :: selected) > 0))
      by (unfold len; simpl; lia).
    rewrite <- (dropIds_nil (items s)) at 2.
    destruct (reduce _ _ _) as [ret|] eqn:Hreduce; simpl; [|done].
    apply reduce_pickUp_dropIds in Hreduce.
    + intros [= <-]. by rewrite Hreduce.
    + apply (inv_keys_NoDup _ _ Hinv).
    + apply (inv_keys_nonempty _ _ Hinv).
    + apply (inv_ids_NoDup _ _ Hinv).
    + intros y Hy. apply original_not_key; [done|].
      apply (inv_selection_original _ _ Hinv). by rewrite Hsel.
Qed.

Lemma Invariant_onDragStart s active s' :
  Invariant parentItems s → active ∈ renderedIds (items s) →
  onDragStart s active = Some s' →
  Invariant parentItems s' ∧ Dragging parentItems s'.
Proof.
  intros Hinv Hactive Hstart.
  apply onDragStart_items in Hstart; [|done]. subst s'.
  assert (active ∈ allIds parentItems) as Hactive'
    by (by apply (inv_ids_original _ _ Hinv), renderedIds_subseteq).
  pose proof (inv_selection_original _ _ Hinv) as Hsel.
  pose proof (inv_selection_NoDup _ _ Hinv) as Hnodup.
  split; split; simpl.
  - rewrite keys_dropIds. apply (inv_keys_NoDup _ _ Hinv).
  - rewrite keys_dropIds. apply (inv_keys_nonempty _ _ Hinv).
  - rewrite keys_dropIds. apply (inv_keys_known _ _ Hinv).
  - rewrite allIds_dropIds. apply NoDup_filter, (inv_ids_NoDup _ _ Hinv).
  - rewrite allIds_dropIds. intros x [_ Hx]%list_elem_of_filter.
    by apply (inv_ids_original _ _ Hinv).
  - destruct (_ && _); [|done].
    intros x [Hx| ->%list_elem_of_singleton]%elem_of_app; [by apply Hsel | done].
  - unfold isItemSelected. destruct (negb (bool_decide (len _ = 0))); [|done].
    case_bool_decide as Hin; simpl; [done|].
    apply NoDup_app. split_and!; [done| |apply NoDup_singleton].
    intros x Hx ->%list_elem_of_singleton. done.
  - intros a x [= <-] Hx Hne. rewrite allIds_dropIds.
    intros [Hnot _]%list_elem_of_filter. apply Hnot.
    apply list_elem_of_filter. split; [done|].
    destruct (_ && _); [|done].
    by apply elem_of_app in Hx as [Hx| ->%list_elem_of_singleton].
  - exists (items s). split_and!; [done| |apply (inv_ids_NoDup _ _ Hinv)
                                   |apply (inv_ids_original _ _ Hinv)].
    by rewrite keys_dropIds.
Qed.

Lemma Invariant_onDragOver s over draggingRect s' :
  Invariant parentItems s → Dragging parentItems s →
  onDragOver s over draggingRect = Some s' →
  Invariant parentItems s' ∧ Dragging parentItems s'.
Proof.
  intros Hinv Hdrag Hover.
  pose proof (onDragOver_ids _ _ _ _ (inv_ids_NoDup _ _ Hinv) Hover) as Hids.
  destruct (onDragOver_fields _ _ _ _ Hover)
    as (Hcloned & Hsel & Hactive & Hkeys & _).
  split; split.
  - rewrite Hkeys. apply (inv_keys_NoDup _ _ Hinv).
  - rewrite Hkeys. apply (inv_keys_nonempty _ _ Hinv).
  - rewrite Hkeys. apply (inv_keys_known _ _ Hinv).
  - rewrite Hids. apply (inv_ids_NoDup _ _ Hinv).
  - intros x Hx. rewrite Hids in Hx. by apply (inv_ids_original _ _ Hinv).
  - rewrite Hsel. apply (inv_selection_original _ _ Hinv).
  - rewrite Hsel. apply (inv_selection_NoDup _ _ Hinv).
  - intros a x Ha Hx Hne. rewrite Hids. rewrite Hactive in Ha. rewrite Hsel in Hx.
    by apply (drag_picked_up _ _ Hdrag a).
  - destruct (drag_snapshot _ _ Hdrag) as (c & Hc & Hckeys & Hcnodup & Hcids).
    exists c. rewrite Hcloned, Hkeys. by split_and!.
Qed.

(** The mapping may be replaced by one with the same containers, or with
    the trash container added, as long as it has no duplicate and no new
    identifier. *)
Lemma Invariant_new_items s s' :
  Invariant parentItems s →
  selectedItems s' = selectedItems s →
  keys (items s') = keys (items s)
  ∨ ((TRASH_DROPPABLE_ID ∉ keys (items s))
     ∧ keys (items s') = keys (items s) ++ [TRASH_DROPPABLE_ID]) →
  NoDup (allIds (items s')) →
  allIds (items s') ⊆ allIds parentItems →
  Invariant parentItems s'.
Proof.
  intros Hinv Hsel Hkeys Hnodup Hids.
  pose proof (inv_keys_NoDup _ _ Hinv) as HkNoDup.
  pose proof (inv_keys_nonempty _ _ Hinv) as Hkne.
  pose proof (inv_keys_known _ _ Hinv) as Hkknown.
  split; try done.
  - destruct Hkeys as [->|[Hnot ->]]; [done|].
    apply NoDup_app. split_and!; [done| |apply NoDup_singleton].
    intros x Hx ->%list_elem_of_singleton. done.
  - destruct Hkeys as [->|[Hnot ->]]; [done|].
    intros [?|Htrash%list_elem_of_singleton]%elem_of_app; done.
  - destruct Hkeys as [->|[Hnot ->]]; [done|].
    intros x [Hx| ->%list_elem_of_singleton]%elem_of_app; [by apply Hkknown|].
    apply elem_of_app. right. left.
  - rewrite Hsel. apply (inv_selection_original _ _ Hinv).
  - rewrite Hsel. apply (inv_selection_NoDup _ _ Hinv).
Qed.

(** The ways [onDragEnd] can leave the mapping. *)
Lemma onDragEnd_cases s over s' :
  onDragEnd arrayMove s over = Some s' →
  selectedItems s' = selectedItems s
  ∧ activeContainerRef s' = activeContainerRef s
  ∧ (items s' = items s
     ∨ items s' = set (items s) TRASH_DROPPABLE_ID []
     ∨ ∃ active oc overItems i j,
         activeId s = Some active ∧ get (items s) oc = Some overItems
         ∧ -1 ≤ j
         ∧ (items s' = set (items s) oc (arrayMove overItems i j)
            ∨ items s'
              = set (items s) oc
                  (splice_in (arrayMove overItems i j) (j + 1)
                     (Some <$> filter (λ item, item ≠ active) (selectedItems s))))).
Proof.
  unfold onDragEnd. intros Hend.
  destruct (negb (truthy (activeId s))); [by simplify_eq; auto|].
  destruct over as [over|]; [|by simplify_eq; auto].
  destruct (activeContainerRef s) as [ac|] eqn:Hac; [|by simplify_eq; auto].
  destruct (activeId s) as [active|] eqn:Ha; [|by simplify_eq; auto].
  destruct (negb (truthy (Some ac))); [by simplify_eq; auto|].
  case_bool_decide; [by simplify_eq; auto|].
  destruct (findContainer (items s) (over_id over)) as [oc|];
    [|by simplify_eq; auto].
  destruct (truthy (Some oc)); [|by simplify_eq; auto].
  destruct (get (items s) ac) as [activeItems|]; simpl in Hend; [|done].
  destruct (get (items s) oc) as [overItems|] eqn:HO; simpl in Hend; [|done].
  pose proof (indexOf_bounds overItems (over_id over)) as [Hj _].
  destruct (negb (bool_decide (len (selectedItems s) = 0))).
  - simplify_eq. simpl. rewrite Hac. split_and!; try done.
    right. right. do 5 eexists. split_and!; [done..|]. by right.
  - case_bool_decide; simplify_eq; simpl; rewrite ?Hac; [|by auto].
    split_and!; try done.
    right. right. do 5 eexists. split_and!; [done..|]. by left.
Qed.

Lemma Invariant_onDragEnd s over s' :
  Invariant parentItems s → Dragging parentItems s →
  onDragEnd arrayMove s over = Some s' →
  Invariant parentItems s'.
Proof.
  intros Hinv Hdrag Hend.
  destruct (onDragEnd_cases _ _ _ Hend) as (Hsel & Href & Hitems).
  pose proof (inv_ids_NoDup _ _ Hinv) as Hnodup.
  pose proof (inv_ids_original _ _ Hinv) as Hids.
  destruct Hitems as [Hsame|[Htrash|Hmove]].
  - apply (Invariant_new_items s); rewrite ?Hsame; auto.
  - destruct (decide (TRASH_DROPPABLE_ID ∈ keys (items s))) as [Hin|Hnot].
    + destruct (proj2 (get_is_Some _ _) Hin) as [l Hl].
      destruct (allIds_set _ _ _ Hl) as (rest & Hrest & Hset).
      specialize (Hset []). change (ids [] ++ rest) with rest in Hset.
      rewrite Hrest in Hnodup, Hids.
      apply (Invariant_new_items s); rewrite ?Htrash; try done.
      * left. by apply keys_set_present.
      * rewrite Hset. by apply NoDup_app in Hnodup as (_ & _ & ?).
      * intros x Hx. rewrite Hset in Hx. apply Hids, elem_of_app. by right.
    + apply (Invariant_new_items s); rewrite ?Htrash; try done.
      * right. split; [done|]. by apply keys_set_absent.
      * rewrite allIds_set_absent by done. by rewrite app_nil_r.
      * rewrite allIds_set_absent by done. by rewrite app_nil_r.
  - destruct Hmove as (active & oc & overItems & i & j & Ha & HO & Hj & Hmove).
    destruct (allIds_set _ _ _ HO) as (rest & Hrest & Hset).
    assert (oc ∈ keys (items s)) as Hoc by (apply get_is_Some; by eexists).
    destruct Hmove as [Hmove|Hmove].
    + assert (allIds (items s') ≡ₚ allIds (items s)) as Hperm
        by (by rewrite Hmove, Hset, arrayMove_reorders, Hrest).
      apply (Invariant_new_items s); try done.
      * left. rewrite Hmove. by apply keys_set_present.
      * by rewrite Hperm.
      * intros x Hx. rewrite Hperm in Hx. by apply Hids.
    + assert (allIds (items s')
              ≡ₚ filter (λ item, item ≠ active) (selectedItems s)
                 ++ allIds (items s)) as Hperm.
      { rewrite Hmove, Hset, splice_in_nonneg by lia.
        by rewrite ids_insert_block, ids_Some, arrayMove_reorders, Hrest,
          (assoc (++)). }
      apply (Invariant_new_items s); try done.
      * left. rewrite Hmove. by apply keys_set_present.
      * rewrite Hperm. apply NoDup_app. split_and!; [|  |done].
        -- apply NoDup_filter, (inv_selection_NoDup _ _ Hinv).
        -- intros x [Hne Hx]%list_elem_of_filter.
           by apply (drag_picked_up _ _ Hdrag active).
      * intros x Hx. rewrite Hperm in Hx.
        apply elem_of_app in Hx as [[_ Hx]%list_elem_of_filter|Hx].
        -- by apply (inv_selection_original _ _ Hinv).
        -- by apply Hids.
Qed.

Lemma Invariant_onDragCancel s :
  Invariant parentItems s → Dragging parentItems s →
  Invariant parentItems (onDragCancel s).
Proof.
  intros Hinv Hdrag.
  destruct (drag_snapshot _ _ Hdrag) as (c & Hc & Hkeys & Hnodup & Hids).
  apply (Invariant_new_items s); try done; simpl; rewrite Hc; simpl; auto.
Qed.

(** Every reachable state satisfies the invariant, and the states reached
    during a gesture satisfy that of a gesture. *)
Lemma reachable_Invariant phase s :
  reachable arrayMove parentItems phase s →
  Invariant parentItems s ∧ (phase = Active → Dragging parentItems s).
Proof.
  induction 1 as [|s id shiftKey _ [IH _] Hid
                  |s nodeName parentNode s' _ [IH _] Hclick
                  |s active s' _ [IH _] Hactive Hstart
                  |s over rect s' _ [IH IHdrag] Hover
                  |s over s' _ [IH IHdrag] Hend
                  |s _ [IH IHdrag]].
  - split; [apply Invariant_init | done].
  - split; [by apply Invariant_onSelectionChanged | done].
  - split; [by eapply Invariant_clearSelection | done].
  - destruct (Invariant_onDragStart _ _ _ IH Hactive Hstart). by split.
  - destruct (Invariant_onDragOver _ _ _ _ IH (IHdrag eq_refl) Hover). by split.
  - split; [by apply (Invariant_onDragEnd s over); auto | done].
  - split; [by apply Invariant_onDragCancel; auto | done].
Qed.

Lemma play_reachable phase s events phase' s' :
  reachable arrayMove parentItems phase s →
  play arrayMove phase s events = Some (phase', s') →
  reachable arrayMove parentItems phase' s'.
Proof.
  revert phase s. induction events as [|e events IH]; intros phase s Hs; simpl.
  - by intros [= <- <-].
  - destruct (admissible phase s e) as [phase1|] eqn:Hadm; simpl; [|done].
    destruct (handle arrayMove s e) as [s1|] eqn:Hhandle; simpl; [|done].
    apply IH. clear IH.
    destruct phase, e; simpl in Hadm, Hhandle; try done;
      try case_bool_decide; simplify_eq.
    + by apply reach_item_click.
    + by eapply reach_document_click.
    + by eapply reach_start.
    + by eapply reach_over.
    + by eapply reach_end.
    + by apply reach_cancel.
Qed.

End Reachability.

(** ** The model of [arrayMove] *)

Lemma arrayMove_spec_same_index l i :
  0 ≤ i < len l → arrayMove_spec l i i = l.
Proof.
  unfold len. intros Hi. unfold arrayMove_spec.
  rewrite bool_decide_eq_true_2 by lia.
  destruct (l !! Z.to_nat i) as [x|] eqn:Hx.
  - rewrite delete_take_drop.
    assert (length (take (Z.to_nat i) l) = Z.to_nat i) as Hlen
      by (rewrite length_take; lia).
    rewrite take_app_length', drop_app_length' by done.
    by apply take_drop_middle.
  - apply lookup_ge_None in Hx. lia.
Qed.

Lemma arrayMove_spec_reorders l from to :
  ids (arrayMove_spec l from to) ≡ₚ ids l.
Proof.
  unfold arrayMove_spec.
  destruct (if bool_decide (0 ≤ from) then l !! Z.to_nat from else None)
    as [x|] eqn:Hx; [|done].
  case_bool_decide; [|done].
  rewrite (ids_insert_block _ _ [x]). symmetry.
  rewrite (delete_Permutation l _ x Hx) at 1. by rewrite <- ids_app.
Qed.

(** ** The default mapping *)

Lemma pretty_N_go_nonempty (x : N) s : s ≠ "" → pretty_N_go x s ≠ "".
Proof.
  revert s. induction (N.lt_wf_0 x) as [x _ IH]; intros s Hs.
  assert (x = 0 ∨ 0 < x)%N as [->|Hx] by lia.
  - by rewrite pretty_N_go_0.
  - rewrite pretty_N_go_step by done. apply IH; [by apply N.div_lt | done].
Qed.

Lemma pretty_nat_nonempty (n : nat) : pretty n ≠ "".
Proof.
  unfold pretty, pretty_nat, pretty, pretty_N. case_decide; [done|].
  rewrite pretty_N_go_step by lia. by apply pretty_N_go_nonempty.
Qed.

Lemma ids_createRange (f : nat → string) n :
  ids (createRange n (λ index, Some (f index))) = f <$> seq 0 n.
Proof.
  unfold createRange. induction (seq 0 n) as [|i l IH]; [done|].
  simpl. by rewrite ids_cons_Some, IH.
Qed.

(** The identifiers of the default mapping are a letter followed by the
    decimal digits of an index. *)
Lemma allIds_defaultItems itemCount :
  allIds (defaultItems itemCount)
  = ((λ index, "A" +:+ pretty index) <$> seq 0 itemCount)
    ++ ((λ index, "B" +:+ pretty index) <$> seq 0 itemCount)
    ++ ((λ index, "C" +:+ pretty index) <$> seq 0 itemCount).
Proof.
  unfold defaultItems. rewrite !allIds_cons, !ids_createRange.
  change (allIds []) with (@nil string). change (ids []) with (@nil string).
  by rewrite !app_nil_r.
Qed.

Lemma NoDup_range (c : ascii) itemCount :
  NoDup ((λ index : nat, String c (pretty index)) <$> seq 0 itemCount).
Proof.
  apply NoDup_fmap_2; [|apply NoDup_seq].
  intros i j [= Hij]. by apply (inj pretty).
Qed.

(** The default mapping is well formed, whatever the number of items. *)
Lemma defaultItems_wellFormed itemCount : wellFormed (defaultItems itemCount).
Proof.
  assert (∀ id, id ∈ allIds (defaultItems itemCount) →
            ∃ c (index : nat), (c = "A" ∨ c = "B" ∨ c = "C")%char
                               ∧ id = String c (pretty index)) as Hshape.
  { intros id. rewrite allIds_defaultItems, !elem_of_app, !list_elem_of_fmap.
    intros [(i & -> & _)|[(i & -> & _)|(i & -> & _)]]; eexists _, i; eauto. }
  unfold wellFormed. split_and!.
  - by apply (bool_decide_unpack _).
  - by apply (bool_decide_unpack _).
  - rewrite allIds_defaultItems. apply NoDup_app. split_and!.
    + apply NoDup_range.
    + intros id (i & -> & _)%list_elem_of_fmap
        [(j & [=] & _)%list_elem_of_fmap|(j & [=] & _)%list_elem_of_fmap]%elem_of_app.
    + apply NoDup_app. split_and!; [apply NoDup_range| |apply NoDup_range].
      intros id (i & -> & _)%list_elem_of_fmap (j & [=] & _)%list_elem_of_fmap.
  - intros id (c & index & Hc & ->)%Hshape.
    pose proof (pretty_nat_nonempty index) as Hne.
    split.
    + intros Hkey. unfold defaultItems, keys in Hkey. simpl in Hkey.
      repeat (apply elem_of_cons in Hkey as [Hkey|Hkey]);
        [simplify_eq; done..| |by apply elem_of_nil in Hkey].
      destruct Hc as [->|[->| ->]]; discriminate.
    + destruct Hc as [->|[->| ->]]; discriminate.
Qed.

(** No identifier of the default mapping is empty or a name that every
    object inherits. *)
Lemma defaultItems_plain itemCount id :
  id ∈ allIds (defaultItems itemCount) →
  id ≠ "" ∧ id ∉ objectPrototypeNames.
Proof.
  rewrite allIds_defaultItems, !elem_of_app, !list_elem_of_fmap.
  intros Hid.
  assert (∃ c rest, (c = "A" ∨ c = "B" ∨ c = "C")%char ∧ id = String c rest)
    as (c & rest & Hc & ->).
  { destruct Hid as [(i & -> & _)|[(i & -> & _)|(i & -> & _)]];
      eexists _, _; eauto. }
  split; [done|]. unfold objectPrototypeNames. intros Hin.
  repeat (apply elem_of_cons in Hin as [Hin|Hin]);
    [destruct Hc as [->|[->| ->]]; discriminate..|by apply elem_of_nil in Hin].
Qed.

(** ** Concrete runs *)

(** C1 fails as stated. On the default mapping, ["A0"] is dragged over the
    trash and released on it: the gesture is over, and ["A0"] is in no
    container. *)
Lemma trash_commit_breaks_partition :
  wellFormed (defaultItems 3)
  ∧ ¬ (∀ s, reachable arrayMove_spec (defaultItems 3) Idle s →
            Partition (defaultItems 3) (items s)).
Proof.
  split; [apply defaultItems_wellFormed|]. intros Hclaim.
  set (rect := mkRect 0 0 0 0 0 0).
  set (trash := Some (mkOver TRASH_DROPPABLE_ID rect)).
  set (s := {| items := [("A", [Some "A1"; Some "A2"]);
                         ("B", [Some "B0"; Some "B1"; Some "B2"]);
                         ("C", [Some "C0"; Some "C1"; Some "C2"]);
                         (TRASH_DROPPABLE_ID, [])];
               selectedItems := [];
               clonedItems := Some (defaultItems 3);
               activeId := None;
               activeContainerRef := Some TRASH_DROPPABLE_ID |}).
  assert (reachable arrayMove_spec (defaultItems 3) Idle s) as Hs.
  { apply (play_reachable arrayMove_spec (defaultItems 3) Idle
             (initialState (defaultItems 3))
             [DragStart "A0"; DragOver trash rect; DragEnd trash]).
    - apply reach_init.
    - reflexivity. }
  specialize (Hclaim s Hs "A0").
  assert ("A0" ∈ allIds (defaultItems 3)) as Hin by (by apply (bool_decide_unpack _)).
  specialize (Hclaim Hin). vm_compute in Hclaim. discriminate.
Qed.

(** C5 fails as stated. With ["A0"] selected, ["A1"] is dragged into the
    trash; whether the gesture is then released on the trash or cancelled,
    the selection is [A0, A1] afterwards. *)
Lemma selection_survives_trash_drop :
  let rect := mkRect 0 0 0 0 0 0 in
  let trash := Some (mkOver TRASH_DROPPABLE_ID rect) in
  let gesture := [ItemClick "A0" true; DragStart "A1"; DragOver trash rect] in
  ∃ dropped committed cancelled,
    play arrayMove_spec Idle (initialState (defaultItems 3)) gesture
    = Some (Active, dropped)
    ∧ get (items dropped) TRASH_DROPPABLE_ID = Some [Some "A1"]
    ∧ onDragEnd arrayMove_spec dropped trash = Some committed
    ∧ selectedItems committed = ["A0"; "A1"]
    ∧ onDragCancel dropped = cancelled
    ∧ selectedItems cancelled = ["A0"; "A1"].
Proof.
  intros rect trash gesture.
  exists {| items := [("A", [Some "A2"]);
                       ("B", [Some "B0"; Some "B1"; Some "B2"]);
                       ("C", [Some "C0"; Some "C1"; Some "C2"]);
                       (TRASH_DROPPABLE_ID, [Some "A1"])];
            selectedItems := ["A0"; "A1"];
            clonedItems := Some (defaultItems 3);
            activeId := Some "A1";
            activeContainerRef := Some TRASH_DROPPABLE_ID |}.
  do 2 eexists. split_and!; vm_compute; reflexivity.
Qed.

Lemma drag_end_and_cancel_keep_selection_witness :
  let s := {| items := [("A", [Some "A0"]); (TRASH_DROPPABLE_ID, [Some "A1"])];
              selectedItems := ["A0"; "A1"]; clonedItems := None;
              activeId := Some "A1";
              activeContainerRef := Some TRASH_DROPPABLE_ID |} in
  let over := Some (mkOver TRASH_DROPPABLE_ID (mkRect 0 0 0 0 0 0)) in
  ∃ s', onDragEnd arrayMove_spec s over = Some s'
        ∧ selectedItems s' = ["A0"; "A1"]
        ∧ selectedItems (onDragCancel s) = ["A0"; "A1"].
Proof.
  intros s over. eexists. split; [reflexivity|].
  destruct (drag_end_and_cancel_keep_selection arrayMove_spec s) as [Hend Hcancel].
  split; [by apply (Hend over) | apply Hcancel].
Defined.

(** C6 fails as stated. ["A2"] is selected before ["A0"]: the same two
    items are selected, and the commit puts ["A2"] before ["A0"]. *)
Lemma selection_order_decides_block_order :
  let rect := mkRect 0 0 0 0 0 0 in
  ∃ s1 s,
    run arrayMove_spec (initialState (defaultItems 3))
      [ItemClick "A2" true; ItemClick "A0" true] = Some s1
    ∧ selectedItems s1 ≡ₚ ["A0"; "A2"]
    ∧ get (items s1) "A" = Some [Some "A0"; Some "A1"; Some "A2"]
    ∧ get (items s1) "B" = Some [Some "B0"; Some "B1"; Some "B2"]
    ∧ run arrayMove_spec s1
        [DragStart "A1"; DragOver (Some (mkOver "B0" rect)) rect;
         DragEnd (Some (mkOver "A1" rect))] = Some s
    ∧ get (items s) "A" = Some []
    ∧ get (items s) "B"
      = Some [Some "A1"; Some "A2"; Some "A0"; Some "B0"; Some "B1"; Some "B2"]
    ∧ get (items s) "B"
      ≠ Some [Some "A1"; Some "A0"; Some "A2"; Some "B0"; Some "B1"; Some "B2"].
Proof.
  intros rect. do 2 eexists. split; [vm_compute; reflexivity|]. simpl.
  split; [apply Permutation_swap|]. split; [reflexivity|].
  split; [reflexivity|]. split; [vm_compute; reflexivity|].
  split_and!; [reflexivity | reflexivity | discriminate].
Qed.

Lemma multi_item_move_scenario_witness :
  let rect := mkRect 0 0 0 0 0 0 in
  (∀ l i, 0 ≤ i < len l → arrayMove_spec l i i = l)
  ∧ ∃ s1 s2 s3 s4,
      run arrayMove_spec (initialState (defaultItems 3))
        [ItemClick "A2" true; ItemClick "A0" true] = Some s1
      ∧ selectedItems s1 = ["A2"; "A0"]
      ∧ onDragStart s1 "A1" = Some s2
      ∧ get (items s2) "A" = Some [Some "A1"]
      ∧ get (items s2) "B" = Some [Some "B0"; Some "B1"; Some "B2"]
      ∧ onDragOver s2 (Some (mkOver "B0" rect)) rect = Some s3
      ∧ findContainer (items s3) "A1" = Some "B"
      ∧ getIndex (items s3) "A1" = Some 0
      ∧ onDragEnd arrayMove_spec s3 (Some (mkOver "A1" rect)) = Some s4
      ∧ get (items s4) "A" = Some []
      ∧ get (items s4) "B"
        = Some [Some "A1"; Some "A2"; Some "A0"; Some "B0"; Some "B1"; Some "B2"].
Proof.
  intros rect. split; [apply arrayMove_spec_same_index|].
  apply (multi_item_move_scenario arrayMove_spec arrayMove_spec_same_index
           "A2" "A0").
  by right.
Defined.

(** ["A1"] is the only selected item; it is dragged within ["A"] and
    released where it is. *)
Lemma drop_on_own_position_is_noop_witness :
  let s := {| items := [("A", [Some "A0"; Some "A1"; Some "A2"]); ("B", [])];
              selectedItems := ["A1"]; clonedItems := None;
              activeId := Some "A1"; activeContainerRef := Some "A" |} in
  ∃ s', onDragEnd arrayMove_spec s (Some (mkOver "A1" (mkRect 0 0 0 0 0 0)))
        = Some s'
        ∧ items s' = items s.
Proof.
  intros s.
  apply (drop_on_own_position_is_noop arrayMove_spec s _ "A1" "A"
           [Some "A0"; Some "A1"; Some "A2"]);
    try reflexivity; try discriminate.
  - apply arrayMove_spec_same_index.
  - right. apply list_elem_of_further, list_elem_of_here.
Defined.

(** ["A0"] is selected; ["A1"] is dragged over ["B0"] and over the trash,
    and the gesture is cancelled. *)
Lemma cancel_restores_mapping_witness :
  let rect := mkRect 0 0 0 0 0 0 in
  let s := {| items := defaultItems 3; selectedItems := ["A0"];
              clonedItems := None; activeId := None;
              activeContainerRef := None |} in
  let moves := [(Some (mkOver "B0" rect), rect);
                (Some (mkOver TRASH_DROPPABLE_ID rect), rect)] in
  ∃ s', run arrayMove_spec s
          (DragStart "A1" :: map (λ m, DragOver m.1 m.2) moves ++ [DragCancel])
        = Some s'
        ∧ items s' = items s.
Proof.
  intros rect s moves.
  destruct (cancel_restores_mapping arrayMove_spec s "A1" moves)
    as [Hitems Hreturns].
  destruct Hreturns as [s' Hs'].
  - intros Hin. apply (bool_decide_pack _) in Hin. by vm_compute in Hin.
  - repeat constructor.
    intros Hin. apply (bool_decide_pack _) in Hin. by vm_compute in Hin.
  - repeat constructor; simpl; intros o [= <-]; simpl;
      intros Hin; apply (bool_decide_pack _) in Hin; by vm_compute in Hin.
  - exists s'. split; [done | by apply Hitems].
Defined.

Lemma selection_has_no_duplicate_witness :
  ∃ s, run arrayMove_spec (initialState (defaultItems 3))
         [ItemClick "A0" true; ItemClick "A2" true; ItemClick "A0" true;
          ItemClick "A0" true; DragStart "A1"; DragCancel]
       = Some s
       ∧ selectedItems s = ["A2"; "A0"; "A1"]
       ∧ NoDup (selectedItems s).
Proof.
  exists {| items := defaultItems 3;
            selectedItems := ["A2"; "A0"; "A1"];
            clonedItems := None;
            activeId := None;
            activeContainerRef := Some "A" |}.
  split; [vm_compute; reflexivity|]. split; [reflexivity|].
  by apply (proj2 (selection_has_no_duplicate arrayMove_spec) (defaultItems 3)
              [ItemClick "A0" true; ItemClick "A2" true; ItemClick "A0" true;
               ItemClick "A0" true; DragStart "A1"; DragCancel]).
Defined.

(** * Further properties of the handlers *)

(** ** Lookups *)

(** X1. [findContainer] answers with the identifier itself when it names a
    container of the mapping or is a name that every object inherits, and
    otherwise with the first container, in the order of the keys, whose
    sequence holds the identifier. It answers [undefined] exactly when the
    identifier names no container, is no inherited name and is in no
    sequence. *)
Theorem findContainer_resolves (items : Items) id :
  match findContainer items id with
  | Some c =>
      (id ∈ keys items ∨ id ∈ objectPrototypeNames → c = id)
      ∧ ((id ∉ keys items) ∧ (id ∉ objectPrototypeNames) →
         c ∈ keys items
         ∧ ∃ (i : nat) l,
             items !! i = Some (c, l) ∧ Some id ∈ l
             ∧ ∀ (j : nat) k l', (j < i)%nat → items !! j = Some (k, l') →
                                 Some id ∉ l')
  | None =>
      (id ∉ keys items) ∧ (id ∉ objectPrototypeNames) ∧ (id ∉ allIds items)
  end.
Proof.
  destruct (findContainer items id) as [c|] eqn:Hc.
  - unfold findContainer in Hc. destruct (has items id) eqn:Hhas.
    + simplify_eq. split; [done|]. apply has_true in Hhas. tauto.
    + apply has_false in Hhas. split; [tauto|]. intros _.
      destruct (list_find (λ kv, includes kv.2 id = true) items)
        as [[i [k l]]|] eqn:Hfind; simplify_eq/=.
      apply list_find_Some in Hfind as (Hi & Hincl & Hfirst).
      split.
      { unfold keys. apply list_elem_of_fmap. exists (c, l).
        split; [done|]. by eapply list_elem_of_lookup_2. }
      exists i, l. split_and!; [done| |].
      * simpl in Hincl. unfold includes in Hincl.
        by apply bool_decide_eq_true in Hincl.
      * intros j k' l' Hj Hjl Hin. apply (Hfirst j (k', l') Hjl Hj).
        simpl. unfold includes. by apply bool_decide_eq_true.
  - assert (has items id = false) as [Hkey Hplain]%has_false.
    { unfold findContainer in Hc. by destruct (has items id). }
    split_and!; [done..|].
    pose proof (findContainer_item items id Hkey Hplain) as Hitem.
    by rewrite Hc in Hitem.
Qed.

(** X2. On a mapping whose container names are distinct and not empty, and
    for an identifier that names no container: [getIndex] raises when the
    identifier is a name that every object inherits, since it then looks for
    the identifier in [items[id]], which is no array; otherwise it returns
    [-1] when the identifier is in no sequence, and else an index of the
    sequence of the container [findContainer] reports, at which that sequence
    holds the identifier. *)
Theorem getIndex_position (items : Items) id :
  NoDup (keys items) → "" ∉ keys items → id ∉ keys items →
  (id ∈ objectPrototypeNames → getIndex items id = None)
  ∧ (id ∉ objectPrototypeNames →
     ∃ i, getIndex items id = Some i
          ∧ (id ∉ allIds items → i = -1)
          ∧ (id ∈ allIds items →
             ∃ c l, findContainer items id = Some c ∧ get items c = Some l
                    ∧ 0 ≤ i ∧ l !! Z.to_nat i = Some (Some id))).
Proof.
  intros Hnodup Hempty Hkey. unfold getIndex. split.
  - intros Hproto. unfold findContainer.
    rewrite (proj2 (has_true items id)) by auto.
    rewrite truthy_Some by (by apply objectPrototypeNames_nonempty). simpl.
    destruct (get items id) as [l|] eqn:Hget; [|done].
    by apply get_Some_key in Hget.
  - intros Hplain.
    pose proof (findContainer_item items id Hkey Hplain) as Hitem.
    destruct (findContainer items id) as [c|] eqn:Hc.
    + destruct Hitem as (l & Hin & Hl).
      assert (c ≠ "") as Hne by (by eapply findContainer_nonempty).
      rewrite truthy_Some by done. simpl.
      rewrite (elem_of_get _ _ _ Hnodup Hin). simpl.
      destruct (indexOf_present l id Hl) as (n & Hn & Hlookup).
      exists (Z.of_nat n). rewrite Hn. split_and!; [done| |].
      * intros Hnot. destruct Hnot. apply elem_of_allIds. by exists c, l.
      * intros _. exists c, l. rewrite Nat2Z.id.
        split_and!; [done|by apply elem_of_get|lia|done].
    + simpl. exists (-1). split_and!; done.
Qed.

(** ["A1"] is at index 1 of ["A"]; [getIndex] raises on ["toString"]. *)
Lemma getIndex_position_witness :
  let items := [("A", [Some "A0"; Some "A1"]); ("B", [Some "B0"])] in
  getIndex items "toString" = None
  ∧ ∃ i, getIndex items "A1" = Some i
         ∧ i = 1
         ∧ ("A1" ∈ allIds items →
            ∃ c l, findContainer items "A1" = Some c ∧ get items c = Some l
                   ∧ 0 ≤ i ∧ l !! Z.to_nat i = Some (Some "A1")).
Proof.
  intros items. split.
  - apply (getIndex_position items "toString");
      by apply (bool_decide_unpack _).
  - destruct (proj2 (getIndex_position items "A1"
                       ltac:(by apply (bool_decide_unpack _))
                       ltac:(by apply (bool_decide_unpack _))
                       ltac:(by apply (bool_decide_unpack _))))
      as (i & Hi & Habsent & Hpresent).
    + by apply (bool_decide_unpack _).
    + exists i. split_and!; [done| |done].
      vm_compute in Hi. by simplify_eq.
Defined.

(** ** Selection *)

Lemma State_eta s :
  {| items := items s; selectedItems := selectedItems s;
     clonedItems := clonedItems s; activeId := activeId s;
     activeContainerRef := activeContainerRef s |} = s.
Proof. by destruct s. Qed.

(** X3. A shift-click on an item flips whether that item is selected and
    leaves every other item as it was; a second shift-click on an item that
    was not selected gives back the state before the first; a plain click
    leaves nothing selected. *)
Theorem shift_click_toggles s id :
  (∀ x, isItemSelected (onSelectionChanged s id true) x
        = if decide (x = id) then negb (isItemSelected s id)
          else isItemSelected s x)
  ∧ (isItemSelected s id = false →
     onSelectionChanged (onSelectionChanged s id true) id true = s)
  ∧ (∀ x, isItemSelected (onSelectionChanged s id false) x = false).
Proof.
  split_and!.
  - intros x. unfold onSelectionChanged, isItemSelected.
    destruct (decide (id ∈ selectedItems s)) as [Hin|Hin].
    + rewrite (bool_decide_eq_true_2 (id ∈ _)) by done. simpl.
      destruct (decide (x = id)) as [->|Hne].
      * apply bool_decide_eq_false_2. by intros [? _]%list_elem_of_filter.
      * apply bool_decide_ext. rewrite list_elem_of_filter.
        split; [by intros [_ ?] | by intros ?].
    + rewrite (bool_decide_eq_false_2 (id ∈ _)) by done. simpl.
      destruct (decide (x = id)) as [->|Hne].
      * apply bool_decide_eq_true_2, elem_of_app. right. left.
      * apply bool_decide_ext. rewrite elem_of_app, list_elem_of_singleton.
        split; [by intros [?|?] | by left].
  - intros Hsel. unfold isItemSelected in Hsel.
    apply bool_decide_eq_false in Hsel.
    unfold onSelectionChanged, isItemSelected.
    rewrite (bool_decide_eq_false_2 (id ∈ selectedItems s)) by done. simpl.
    rewrite bool_decide_eq_true_2 by (apply elem_of_app; right; left).
    unfold setSelectedItems. simpl.
    rewrite filter_app, filter_cons_False, filter_nil, app_nil_r
      by (by intros []).
    rewrite filter_all; [apply State_eta|]. by intros x Hx ->.
  - intros x. unfold onSelectionChanged, isItemSelected.
    unfold setSelectedItems, selectedItems.
    apply bool_decide_eq_false_2, not_elem_of_nil.
Qed.

(** ** The start of a gesture *)

Lemma get_dropIds removed (items : Items) k :
  get (dropIds removed items) k
  = filter (λ e : elem, e ∉ Some <$> removed) <$> get items k.
Proof.
  induction items as [|[k0 l] items IH]; [done|].
  rewrite dropIds_cons. simpl. by destruct (decide (k0 = k)).
Qed.

Lemma filter_selection_extended (selected : list string) active :
  filter (λ x, x ≠ active) (selected ++ [active])
  = filter (λ x, x ≠ active) selected.
Proof.
  by rewrite filter_app, filter_cons_False, filter_nil, app_nil_r
    by (by intros []).
Qed.

(** X4. On a mapping without duplicates whose container names are distinct
    and not empty, and with a selection of identifiers for which [id in items]
    is false (they name no container and are no inherited name),
    [onDragStart] does not raise; it takes the selected items other than the
    active one out of every sequence, keeping the order of what is left and
    the containers; it records the mapping it found and the active item; and
    it adds the active item to a selection that is not empty and lacks it,
    while an empty selection stays empty. *)
Theorem drag_start_picks_up_selection s active :
  NoDup (keys (items s)) → "" ∉ keys (items s) → NoDup (allIds (items s)) →
  (∀ x, x ∈ selectedItems s → has (items s) x = false) →
  ∃ s', onDragStart s active = Some s'
        ∧ (∀ k, get (items s') k
                = filter (λ e : elem,
                            e ∉ Some <$> filter (λ x, x ≠ active)
                                           (selectedItems s))
                  <$> get (items s) k)
        ∧ keys (items s') = keys (items s)
        ∧ allIds (items s')
          = filter (λ x, x ∉ filter (λ y, y ≠ active) (selectedItems s))
              (allIds (items s))
        ∧ (selectedItems s = [] → selectedItems s' = [])
        ∧ (active ∈ selectedItems s → selectedItems s' = selectedItems s)
        ∧ (selectedItems s ≠ [] → active ∉ selectedItems s →
           selectedItems s' = selectedItems s ++ [active])
        ∧ clonedItems s' = Some (items s)
        ∧ activeId s' = Some active.
Proof.
  intros Hkeys Hempty Hids Hsel.
  assert (onDragStart s active
          = Some {| items := dropIds (filter (λ x, x ≠ active) (selectedItems s))
                               (items s);
                    selectedItems :=
                      if negb (bool_decide (len (selectedItems s) = 0))
                         && negb (isItemSelected s active)
                      then selectedItems s ++ [active] else selectedItems s;
                    clonedItems := Some (items s);
                    activeId := Some active;
                    activeContainerRef := findContainer (items s) active |})
    as Hstart.
  { unfold onDragStart. destruct (selectedItems s) as [|x selected] eqn:Hs.
    - simpl. by rewrite dropIds_nil.
    - rewrite (bool_decide_eq_true_2 (len (x :: selected) > 0))
        by (unfold len; simpl; lia).
      rewrite <- (dropIds_nil (items s)) at 2.
      rewrite reduce_pickUp_dropIds_returns; try done.
      intros y Hy. by apply has_false, Hsel. }
  eexists. split; [exact Hstart|]. simpl. unfold isItemSelected. split_and!.
  - intros k. apply get_dropIds.
  - apply keys_dropIds.
  - apply allIds_dropIds.
  - by intros ->.
  - intros Hin. rewrite (bool_decide_eq_true_2 (active ∈ _)) by done.
    by rewrite andb_false_r.
  - intros Hne Hnot. rewrite (bool_decide_eq_false_2 (active ∈ _)) by done.
    rewrite bool_decide_eq_false_2; [done|].
    unfold len. destruct (selectedItems s); [done | simpl; lia].
  - done.
  - done.
Qed.

(** ["A0"] and ["B1"] are selected and ["A1"] is dragged. *)
Lemma drag_start_picks_up_selection_witness :
  let s := {| items := [("A", [Some "A0"; Some "A1"; Some "A2"]);
                        ("B", [Some "B0"; Some "B1"])];
              selectedItems := ["A0"; "B1"]; clonedItems := None;
              activeId := None; activeContainerRef := None |} in
  ∃ s', onDragStart s "A1" = Some s'
        ∧ items s' = [("A", [Some "A1"; Some "A2"]); ("B", [Some "B0"])]
        ∧ selectedItems s' = ["A0"; "B1"; "A1"]
        ∧ allIds (items s')
          = filter (λ x, x ∉ filter (λ y, y ≠ "A1") (selectedItems s))
              (allIds (items s)).
Proof.
  intros s.
  destruct (drag_start_picks_up_selection s "A1")
    as (s' & Hstart & _ & _ & Hids & _ & _ & Hsel & _).
  - by apply (bool_decide_unpack _).
  - by apply (bool_decide_unpack _).
  - by apply (bool_decide_unpack _).
  - apply Forall_forall. by apply (bool_decide_unpack _).
  - exists s'. split; [done|].
    rewrite Hids. vm_compute in Hstart. simplify_eq. done.
Defined.

(** ** Live moves *)

Lemma indexOf_insert (l1 l2 : list elem) a :
  Some a ∉ l1 → indexOf (l1 ++ Some a :: l2) a = len l1.
Proof.
  intros Hnot. unfold indexOf.
  rewrite list_find_app_r.
  - simpl. rewrite decide_True by done. simpl. unfold len. lia.
  - apply list_find_None, Forall_forall. by intros x Hx ->.
Qed.

Lemma onDragOver_frame s over draggingRect s' k :
  onDragOver s over draggingRect = Some s' →
  activeContainerRef s ≠ Some k → activeContainerRef s' ≠ Some k →
  get (items s') k = get (items s) k.
Proof.
  unfold onDragOver.
  destruct over as [over|]; [|by intros [= <-]].
  destruct (findContainer (items s) (over_id over)) as [oc|]; [|by intros [= <-]].
  destruct (activeContainerRef s) as [ac|]; [|by intros [= <-]].
  destruct (activeId s) as [active|]; [|by intros [= <-]].
  destruct (_ || _); [by intros [= <-]|].
  case_bool_decide as Hne; [|by intros [= <-]].
  destruct (get (items s) ac) as [activeItems|]; simpl; [|done].
  destruct (get (items s) oc) as [overItems|]; simpl; [|done].
  intros [= <-] Hac Hoc. simpl in *.
  rewrite !get_set_ne; [done|congruence..].
Qed.

(** X5. A move event on a mapping without duplicates neither loses nor
    duplicates an identifier and keeps the containers; the only sequences it
    can change are those of the container the item was tracked in and of the
    container it is tracked in afterwards. *)
Theorem live_move_keeps_identifiers s over draggingRect s' :
  NoDup (allIds (items s)) →
  onDragOver s over draggingRect = Some s' →
  allIds (items s') ≡ₚ allIds (items s)
  ∧ (∀ k, activeContainerRef s ≠ Some k → activeContainerRef s' ≠ Some k →
          get (items s') k = get (items s) k)
  ∧ selectedItems s' = selectedItems s
  ∧ clonedItems s' = clonedItems s
  ∧ activeId s' = activeId s.
Proof.
  intros Hnodup Hover. split_and!.
  - by eapply onDragOver_ids.
  - intros k. by eapply onDragOver_frame.
  - unfold onDragOver in Hover. repeat case_match; simplify_option_eq; done.
  - unfold onDragOver in Hover. repeat case_match; simplify_option_eq; done.
  - unfold onDragOver in Hover. repeat case_match; simplify_option_eq; done.
Qed.

Lemma live_move_keeps_identifiers_witness :
  let s := {| items := [("A", [Some "A0"; Some "A1"]); ("B", [Some "B0"]);
                        ("C", [Some "C0"])];
              selectedItems := []; clonedItems := None;
              activeId := Some "A1"; activeContainerRef := Some "A" |} in
  let rect := mkRect 0 0 0 0 0 0 in
  ∃ s', onDragOver s (Some (mkOver "B0" rect)) rect = Some s'
        ∧ items s' = [("A", [Some "A0"]); ("B", [Some "A1"; Some "B0"]);
                      ("C", [Some "C0"])]
        ∧ allIds (items s') ≡ₚ allIds (items s)
        ∧ get (items s') "C" = get (items s) "C".
Proof.
  intros s rect. eexists. split; [reflexivity|]. split; [reflexivity|].
  destruct (live_move_keeps_identifiers s (Some (mkOver "B0" rect)) rect
              {| items := [("A", [Some "A0"]); ("B", [Some "A1"; Some "B0"]);
                           ("C", [Some "C0"])];
                 selectedItems := []; clonedItems := None;
                 activeId := Some "A1"; activeContainerRef := Some "B" |})
    as (Hperm & Hframe & _).
  - by apply (bool_decide_unpack _).
  - reflexivity.
  - split; [exact Hperm|]. apply Hframe; simpl; discriminate.
Defined.

(** X6. A live move onto an item of another container puts the active item
    at the index of that item, or one further when that item is the last of
    its container and the top of the dragged rectangle is below its middle,
    as the floating-point subtraction, division and comparison of the code
    compute it: the other items of the container keep their order around it,
    and the active item leaves the container it was tracked in, where what
    is left is the entries other than the active item, in their order. *)
Theorem live_move_inserts_at_hovered_index s over draggingRect active ac oc
    activeItems overItems (i : nat) :
  activeId s = Some active → active ≠ "" →
  activeContainerRef s = Some ac → ac ≠ "" →
  findContainer (items s) (over_id over) = Some oc → oc ≠ "" →
  ac ≠ oc →
  get (items s) ac = Some activeItems →
  get (items s) oc = Some overItems →
  Some active ∈ activeItems →
  Some active ∉ overItems →
  indexOf overItems (over_id over) = Z.of_nat i →
  let isBelowLastItem :=
    bool_decide (Z.of_nat i = len overItems - 1)
    && PrimFloat.ltb
         (bottom (over_clientRect over) - height (over_clientRect over) / 2)%float
         (top draggingRect) in
  let newIndex := (if isBelowLastItem then S i else i) in
  ∃ s' newItems,
    onDragOver s (Some over) draggingRect = Some s'
    ∧ get (items s') oc = Some newItems
    ∧ newItems = take newIndex overItems ++ Some active :: drop newIndex overItems
    ∧ indexOf newItems active = Z.of_nat newIndex
    ∧ get (items s') ac
      = Some (filter (λ item, item ≠ Some active) activeItems)
    ∧ activeContainerRef s' = Some oc.
Proof.
  intros Ha Hane Hac Hacne Hoc Hocne Hne HA HO Hin Hnot Hi isBelow newIndex.
  pose proof (indexOf_bounds overItems (over_id over)) as Hbound.
  unfold len in Hbound.
  assert (newIndex ≤ length overItems)%nat as Hle.
  { subst newIndex isBelow. destruct (_ && _); lia. }
  unfold onDragOver. rewrite Hoc, Hac, Ha, !truthy_Some by done. simpl.
  rewrite bool_decide_eq_true_2 by done. rewrite HA, HO. simpl.
  rewrite Hi. rewrite (bool_decide_eq_true_2 (Z.of_nat i >= 0)) by lia.
  rewrite at_index_indexOf. unfold includes.
  rewrite (bool_decide_eq_true_2 (Some active ∈ activeItems)) by done.
  fold isBelow.
  assert (Z.of_nat i + (if isBelow then 1 else 0) = Z.of_nat newIndex) as ->
    by (subst newIndex; destruct isBelow; lia).
  rewrite slice_prefix, slice_suffix, Nat2Z.id by lia.
  eexists _, _. split_and!; [reflexivity| |reflexivity| | |done].
  - simpl. by rewrite get_set_eq.
  - rewrite indexOf_insert.
    + unfold len. rewrite length_take. lia.
    + intros Hx. apply Hnot. by eapply subseteq_take.
  - simpl. by rewrite get_set_ne, get_set_eq.
Qed.

(** ["A1"] is dragged over ["B1"], the last item of ["B"], with the top of
    the dragged rectangle below the middle of ["B1"]: it goes last. *)
Lemma live_move_inserts_at_hovered_index_witness :
  let s := {| items := [("A", [Some "A0"; Some "A1"]);
                        ("B", [Some "B0"; Some "B1"])];
              selectedItems := []; clonedItems := None;
              activeId := Some "A1"; activeContainerRef := Some "A" |} in
  let over := mkOver "B1" (mkRect 40 80 0 100 100 40) in
  let draggingRect := mkRect 70 110 0 100 100 40 in
  ∃ s' newItems,
    onDragOver s (Some over) draggingRect = Some s'
    ∧ get (items s') "B" = Some newItems
    ∧ newItems = [Some "B0"; Some "B1"; Some "A1"]
    ∧ indexOf newItems "A1" = 2
    ∧ get (items s') "A" = Some [Some "A0"].
Proof.
  intros s over draggingRect.
  destruct (live_move_inserts_at_hovered_index s over draggingRect "A1" "A" "B"
              [Some "A0"; Some "A1"] [Some "B0"; Some "B1"] 1)
    as (s' & newItems & Hover & HB & Hnew & Hindex & HA & _);
    try reflexivity; try discriminate.
  - by apply (bool_decide_unpack _).
  - by apply (bool_decide_unpack _).
  - exists s', newItems. split_and!; try done.
Defined.

(** ** What the handlers never do *)

Lemma keys_set_subseteq (items : Items) k l : keys items ⊆ keys (set items k l).
Proof.
  destruct (decide (k ∈ keys items)).
  - by rewrite keys_set_present.
  - rewrite keys_set_absent by done. by apply list_subseteq_app_l.
Qed.

Lemma onDragOver_ref s over draggingRect s' :
  onDragOver s over draggingRect = Some s' →
  clonedItems s' = clonedItems s ∧ activeId s' = activeId s
  ∧ keys (items s') = keys (items s)
  ∧ (activeContainerRef s' = activeContainerRef s
     ∨ (truthy (activeId s) = true
        ∧ ∃ oc, activeContainerRef s' = Some oc ∧ oc ∈ keys (items s))).
Proof.
  unfold onDragOver.
  destruct over as [over|]; [|intros [= <-]; split_and!; auto].
  destruct (findContainer (items s) (over_id over)) as [oc|] eqn:Hoc;
    [|intros [= <-]; split_and!; auto].
  destruct (activeContainerRef s) as [ac|] eqn:Hac; [|intros [= <-]; split_and!; auto].
  destruct (activeId s) as [active|] eqn:Ha; [|intros [= <-]; split_and!; auto].
  destruct (_ || _) eqn:Hguard; [intros [= <-]; split_and!; auto|].
  apply orb_false_iff in Hguard as [_ Hactive%negb_false_iff].
  case_bool_decide as Hne; [|intros [= <-]; split_and!; auto].
  destruct (get (items s) ac) as [activeItems|] eqn:HA; simpl; [|done].
  destruct (get (items s) oc) as [overItems|] eqn:HO; simpl; [|done].
  intros [= <-]. simpl. split_and!; [done..| |].
  - rewrite keys_set_present; rewrite keys_set_present;
      try done; apply get_is_Some; by eexists.
  - right. split; [done|]. exists oc. split; [done|]. by eapply get_Some_key.
Qed.

Section NeverRaises.

Variable arrayMove : list elem → Z → Z → list elem.

Lemma onDragEnd_fields s over s' :
  onDragEnd arrayMove s over = Some s' →
  clonedItems s' = clonedItems s
  ∧ activeContainerRef s' = activeContainerRef s
  ∧ truthy (activeId s') = false
  ∧ (keys (items s') = keys (items s)
     ∨ keys (items s') = keys (items s) ++ [TRASH_DROPPABLE_ID]
       ∧ TRASH_DROPPABLE_ID ∉ keys (items s)).
Proof.
  unfold onDragEnd.
  destruct (truthy (activeId s)) eqn:Hactive; simpl; [|intros [= <-]; split_and!; auto].
  destruct over as [over|]; [|intros [= <-]; split_and!; auto].
  destruct (activeContainerRef s) as [ac|] eqn:Hac; [|intros [= <-]; split_and!; auto].
  destruct (activeId s) as [active|] eqn:Ha; [|intros [= <-]; split_and!; auto].
  destruct (negb (truthy (Some ac))); [intros [= <-]; split_and!; auto|].
  case_bool_decide.
  { intros [= <-]. simpl. split_and!; [done..|].
    destruct (decide (TRASH_DROPPABLE_ID ∈ keys (items s))).
    - left. by apply keys_set_present.
    - right. split; [by apply keys_set_absent | done]. }
  destruct (findContainer (items s) (over_id over)) as [oc|];
    [|intros [= <-]; split_and!; auto].
  destruct (truthy (Some oc)); [|intros [= <-]; split_and!; auto].
  destruct (get (items s) ac) as [activeItems|]; simpl; [|done].
  destruct (get (items s) oc) as [overItems|] eqn:HO; simpl; [|done].
  assert (oc ∈ keys (items s)) as Hoc by (apply get_is_Some; by eexists).
  destruct (negb (bool_decide (len (selectedItems s) = 0))).
  - intros [= <-]. simpl. split_and!; [done..|]. left. by apply keys_set_present.
  - case_bool_decide; intros [= <-]; simpl; split_and!; try done; auto.
    left. by apply keys_set_present.
Qed.

(** [onDragEnd] returns when the tracking container is a container of the
    mapping and the droppable under the pointer has no inherited name. *)
Lemma onDragEnd_tracked s over :
  tracked s →
  (∀ o, over = Some o → over_id o ∉ objectPrototypeNames) →
  ∃ s', onDragEnd arrayMove s over = Some s'.
Proof.
  intros Htracked Hplain. unfold onDragEnd.
  destruct (negb (truthy (activeId s))); [by eexists|].
  destruct over as [over|]; [|by eexists].
  destruct (activeContainerRef s) as [ac|] eqn:Hac; [|by eexists].
  destruct (activeId s) as [active|]; [|by eexists].
  destruct (negb (truthy (Some ac))); [by eexists|].
  case_bool_decide; [by eexists|].
  destruct (findContainer (items s) (over_id over)) as [oc|] eqn:Hoc;
    [|by eexists].
  destruct (truthy (Some oc)); [|by eexists].
  destruct (proj2 (get_is_Some _ _) (Htracked ac Hac)) as [activeItems ->].
  destruct (proj2 (get_is_Some _ _)
              (findContainer_key _ _ _ Hoc (Hplain _ eq_refl)))
    as [overItems ->].
  simpl. repeat case_match; by eexists.
Qed.

Lemma onDragStart_selectedItems s active s' :
  onDragStart s active = Some s' →
  selectedItems s' = selectedItems s
  ∨ selectedItems s' = selectedItems s ++ [active].
Proof.
  unfold onDragStart. intros Hstart.
  destruct (if bool_decide (len (selectedItems s) > 0) then _ else _)
    as [newItems|]; simplify_eq/=.
  destruct (_ && _); auto.
Qed.

Lemma handle_snapshotCoherent s e :
  snapshotCoherent s →
  Forall (λ item, item ∉ objectPrototypeNames) (selectedItems s) →
  plainEvent e →
  ∃ s', handle arrayMove s e = Some s' ∧ snapshotCoherent s'
        ∧ Forall (λ item, item ∉ objectPrototypeNames) (selectedItems s').
Proof.
  intros [Htracked Hsnap] Hsel He.
  destruct e as [id shiftKey|nodeName parentNode|active|over rect|over|];
    simpl in *.
  - eexists. split; [done|]. unfold onSelectionChanged.
    repeat case_match; (split; [done|]); simpl.
    + apply Forall_forall. intros x [_ Hx]%list_elem_of_filter.
      by apply (proj1 (Forall_forall _ _) Hsel).
    + apply Forall_app. split; [done|]. by apply Forall_singleton.
    + constructor.
  - assert (∃ s', clearSelection s nodeName parentNode = Some s') as [s' Hs'].
    { unfold clearSelection. destruct He as [->|[p ->]]; [by eexists|].
      simpl. repeat case_match; by eexists. }
    exists s'. split; [done|].
    apply clearSelection_cases in Hs' as [->| ->]; [done|].
    split; [done | constructor].
  - destruct (onDragStart_returns s active Hsel) as [s' Hstart].
    destruct (onDragStart_fields _ _ _ Hstart)
      as (Hcloned & Hactive & Href & Hkeys).
    exists s'. split; [done|].
    split; [split; [by eapply onDragStart_tracked|] |].
    + intros c Hc. rewrite Hcloned in Hc. simplify_eq. rewrite Hkeys.
      split_and!; [done..|].
      intros r Hr. rewrite Href in Hr. by eapply findContainer_key.
    + destruct (onDragStart_selectedItems _ _ _ Hstart) as [->| ->]; [done|].
      apply Forall_app. split; [done|]. by apply Forall_singleton.
  - assert (∀ o, over = Some o → over_id o ∉ objectPrototypeNames) as Hover
      by (intros o ->; done).
    destruct (onDragOver_returns s over rect Htracked Hover) as [s' Hs'].
    destruct (onDragOver_fields _ _ _ _ Hs') as (_ & Hsel' & _ & _ & Htracked').
    exists s'. split; [done|].
    split; [split; [by apply Htracked'|] | by rewrite Hsel'].
    destruct (onDragOver_ref _ _ _ _ Hs') as (Hcloned & Hactive & Hkeys & Href).
    intros c Hc. rewrite Hcloned in Hc.
    destruct (Hsnap c Hc) as (Hsub & Hsup & Hrefc).
    rewrite Hkeys, Hactive. split_and!; [done..|].
    intros r Hr. destruct Href as [Href|(Htruthy & oc & Hoc & Hin)].
    + apply Hrefc. by rewrite <- Href.
    + rewrite Hoc in Hr. simplify_eq. by apply Hsup.
  - assert (∀ o, over = Some o → over_id o ∉ objectPrototypeNames) as Hover
      by (intros o ->; done).
    destruct (onDragEnd_tracked s over Htracked Hover) as [s' Hend].
    exists s'. split; [done|].
    destruct (onDragEnd_fields _ _ _ Hend) as (Hcloned & Href & Hactive & Hkeys).
    assert (keys (items s) ⊆ keys (items s')) as Hsub.
    { destruct Hkeys as [->|[-> _]]; [done | by apply list_subseteq_app_l]. }
    split; [split|].
    + intros r Hr. rewrite Href in Hr. by apply Hsub, Htracked.
    + intros c Hc. rewrite Hcloned in Hc.
      destruct (Hsnap c Hc) as (Hsubc & _ & Hrefc).
      rewrite Hactive, Href. split_and!; [by etrans|done|done].
    + by rewrite (onDragEnd_selectedItems _ _ _ _ Hend).
  - eexists. split; [done|]. split; [split | done].
    + intros r Hr. simpl in *.
      destruct (clonedItems s) as [c|] eqn:Hc; simpl; [|by apply Htracked].
      by apply (Hsnap c).
    + by intros c [=].
Qed.

(** X7. A sequence of events, in any order and from any initial mapping,
    makes no handler raise, as long as no event names a property that every
    object inherits and no document click is on a target that is no [LI] and
    has no parent: the sequence of a container is then never read from a
    name that is not a container of the mapping, and the tracking container,
    once set, is a container of the mapping. *)
Theorem no_event_sequence_raises parentItems events :
  Forall plainEvent events →
  ∃ s, run arrayMove (initialState parentItems) events = Some s ∧ tracked s.
Proof.
  assert (snapshotCoherent (initialState parentItems)
          ∧ Forall (λ item, item ∉ objectPrototypeNames)
              (selectedItems (initialState parentItems))) as Hinit
    by (split; [by split | constructor]).
  revert Hinit. generalize (initialState parentItems).
  induction events as [|e events IH]; intros s [Hs Hsel] Hevents; simpl.
  - exists s. by destruct Hs.
  - apply Forall_cons in Hevents as [He Hevents].
    destruct (handle_snapshotCoherent s e Hs Hsel He) as (s1 & -> & Hs1 & Hsel1).
    simpl. by apply IH.
Qed.

Lemma handle_sameContainers parentItems s e s' :
  sameContainers parentItems (keys (items s)) →
  (∀ c, clonedItems s = Some c → sameContainers parentItems (keys c)) →
  handle arrayMove s e = Some s' →
  sameContainers parentItems (keys (items s'))
  ∧ (∀ c, clonedItems s' = Some c → sameContainers parentItems (keys c)).
Proof.
  intros Hkeys Hsnap.
  destruct e as [id shiftKey|nodeName parentNode|active|over rect|over|];
    simpl.
  - intros [= <-]. unfold onSelectionChanged. by repeat case_match.
  - by intros [->| ->]%clearSelection_cases.
  - intros Hstart.
    destruct (onDragStart_fields _ _ _ Hstart) as (Hcloned & _ & _ & Hk).
    rewrite Hk. split; [done|].
    intros c Hc. rewrite Hcloned in Hc. by simplify_eq.
  - intros (Hcloned & _ & Hk & _)%onDragOver_ref. by rewrite Hk, Hcloned.
  - intros (Hcloned & _ & _ & Hk)%onDragEnd_fields. rewrite Hcloned.
    split; [|done]. destruct Hk as [->|[-> Hnot]]; [done|].
    destruct Hkeys as [Hsame|[_ Hsame]].
    + right. by rewrite Hsame in *.
    + destruct Hnot. rewrite Hsame. apply elem_of_app. right. left.
  - intros [= <-]. simpl. split; [|done].
    destruct (clonedItems s) as [c|]; simpl; [by apply Hsnap | done].
Qed.

(** X8. Containers are never removed, renamed or reordered: after any
    sequence of events the containers of the mapping are those of the first
    render, in the same order, with at most the trash container added last
    when the first render had none. *)
Theorem containers_are_kept parentItems events s :
  run arrayMove (initialState parentItems) events = Some s →
  sameContainers parentItems (keys (items s)).
Proof.
  assert (sameContainers parentItems (keys (items (initialState parentItems)))
          ∧ (∀ c, clonedItems (initialState parentItems) = Some c →
                  sameContainers parentItems (keys c))) as Hinit
    by (split; [by left | done]).
  revert Hinit. generalize (initialState parentItems).
  induction events as [|e events IH]; intros s0 [Hkeys Hsnap]; simpl.
  - by intros [= <-].
  - destruct (handle arrayMove s0 e) as [s1|] eqn:He; simpl; [|done].
    apply IH. by eapply handle_sameContainers.
Qed.

(** X9. Move and end events outside a gesture change nothing: once an end
    event has been handled, or a gesture has been cancelled, any sequence of
    move and end events leaves the state as it is. *)
Theorem events_outside_gesture_are_ignored s events :
  Forall (λ e, match e with DragOver _ _ | DragEnd _ => True | _ => False end)
    events →
  (∀ over s', onDragEnd arrayMove s over = Some s' →
              run arrayMove s' events = Some s')
  ∧ run arrayMove (onDragCancel s) events = Some (onDragCancel s).
Proof.
  intros Hevents.
  assert (∀ s0, truthy (activeId s0) = false → run arrayMove s0 events = Some s0)
    as Hidle.
  { intros s0 Hs0. induction Hevents as [|e events He _ IH]; [done|].
    destruct e as [| | |over rect|over|]; try done; simpl.
    - assert (onDragOver s0 over rect = Some s0) as ->; [|done].
      unfold onDragOver. destruct over as [over|]; [|done].
      repeat case_match; try done. by rewrite Hs0, !orb_true_r in *.
    - assert (onDragEnd arrayMove s0 over = Some s0) as ->; [|done].
      unfold onDragEnd. by rewrite Hs0. }
  split.
  - intros over s' (_ & _ & Hactive & _)%onDragEnd_fields. by apply Hidle.
  - by apply Hidle.
Qed.

(** X10. A commit does not discard the rollback snapshot: when a cancel
    event follows the end of a gesture, the mapping goes back to what it was
    just before the gesture started, whatever the gesture committed. The
    handlers return when neither the dragged item, nor a selected item, nor a
    droppable under the pointer has a name that every object inherits. *)
Theorem cancel_after_commit_restores_snapshot s active
    (moves : list (option Over * ClientRect)) over :
  (∀ s', run arrayMove s
           (DragStart active :: map (λ m, DragOver m.1 m.2) moves
            ++ [DragEnd over; DragCancel])
         = Some s' →
         items s' = items s)
  ∧ (active ∉ objectPrototypeNames →
     Forall (λ item, item ∉ objectPrototypeNames) (selectedItems s) →
     Forall (λ m, ∀ o, m.1 = Some o → over_id o ∉ objectPrototypeNames) moves →
     (∀ o, over = Some o → over_id o ∉ objectPrototypeNames) →
     is_Some (run arrayMove s
                (DragStart active :: map (λ m, DragOver m.1 m.2) moves
                 ++ [DragEnd over; DragCancel]))).
Proof.
  split.
  - intros s'. simpl.
    destruct (onDragStart s active) as [s1|] eqn:Hstart; simpl; [|done].
    rewrite run_app.
    destruct (run arrayMove s1 _) as [s2|] eqn:Hmoves; simpl; [|done].
    destruct (onDragEnd arrayMove s2 over) as [s3|] eqn:Hend; simpl; [|done].
    intros [= <-]. simpl.
    destruct (onDragEnd_fields _ _ _ Hend) as (-> & _).
    rewrite (run_moves_keep_snapshot _ _ _ _ Hmoves).
    by destruct (onDragStart_fields _ _ _ Hstart) as (-> & _).
  - intros Hactive Hselected Hmoves Hover. simpl.
    destruct (onDragStart_returns s active Hselected) as [s1 Hstart].
    rewrite Hstart. simpl. rewrite run_app.
    destruct (run_moves_return arrayMove s1 moves) as (s2 & -> & Htracked2);
      [|done|].
    { by eapply onDragStart_tracked. }
    simpl. destruct (onDragEnd_tracked s2 over Htracked2 Hover) as [s3 ->].
    by eexists.
Qed.

(** X11. The end of a gesture changes the sequence of at most one
    container: the sequence of a container that is neither named by the drop
    target nor the one [findContainer] reports for it is the same afterwards. *)
Theorem drop_changes_one_container s over s' k :
  onDragEnd arrayMove s over = Some s' →
  (∀ o, over = Some o →
        over_id o ≠ k ∧ findContainer (items s) (over_id o) ≠ Some k) →
  get (items s') k = get (items s) k.
Proof.
  unfold onDragEnd. intros Hend Hk.
  destruct (negb (truthy (activeId s))); [by simplify_eq|].
  destruct over as [over|]; [|by simplify_eq].
  destruct (Hk over eq_refl) as [Hid Hoc].
  destruct (activeContainerRef s) as [ac|]; [|by simplify_eq].
  destruct (activeId s) as [active|]; [|by simplify_eq].
  destruct (negb (truthy (Some ac))); [by simplify_eq|].
  case_bool_decide as Htrash.
  { simplify_eq. simpl. apply get_set_ne. congruence. }
  destruct (findContainer (items s) (over_id over)) as [oc|];
    [|by simplify_eq].
  destruct (truthy (Some oc)); [|by simplify_eq].
  destruct (get (items s) ac) as [activeItems|]; simpl in Hend; [|done].
  destruct (get (items s) oc) as [overItems|]; simpl in Hend; [|done].
  assert (oc ≠ k) by congruence.
  repeat case_match; simplify_eq; simpl; by rewrite ?get_set_ne.
Qed.

End NeverRaises.

(** A click, a click outside the items, a gesture released over a droppable
    that is not resolved, and a cancel: no handler raises. A move over a
    droppable named ["constructor"] raises, and so does a click on a target
    that is no [LI] and has no parent. *)
Lemma no_event_sequence_raises_witness :
  let rect := mkRect 0 0 0 0 0 0 in
  let events := [ItemClick "A0" true; DocumentClick "DIV" (Some "BODY");
                 DragStart "A1"; DragOver (Some (mkOver "B0" rect)) rect;
                 DragEnd (Some (mkOver "nowhere" rect)); DragCancel] in
  (∃ s, run arrayMove_spec (initialState (defaultItems 3)) events = Some s
        ∧ tracked s)
  ∧ run arrayMove_spec (initialState (defaultItems 3))
      [DragStart "A1"; DragOver (Some (mkOver "constructor" rect)) rect] = None
  ∧ run arrayMove_spec (initialState (defaultItems 3))
      [DocumentClick "HTML" None] = None.
Proof.
  intros rect events. split; [|by vm_compute].
  apply (no_event_sequence_raises arrayMove_spec (defaultItems 3) events).
  repeat (apply Forall_cons; split); try apply Forall_nil; simpl;
    try (by apply (bool_decide_unpack _)); try (right; by eexists); done.
Defined.

(** ["A1"] is dragged over ["B0"] and released over the trash; a cancel
    event then brings back the mapping of before the gesture. *)
Lemma cancel_after_commit_restores_snapshot_witness :
  let rect := mkRect 0 0 0 0 0 0 in
  let s := initialState (defaultItems 3) in
  let moves := [(Some (mkOver "B0" rect), rect)] in
  let over := Some (mkOver TRASH_DROPPABLE_ID rect) in
  ∃ s', run arrayMove_spec s
          (DragStart "A1" :: map (λ m, DragOver m.1 m.2) moves
           ++ [DragEnd over; DragCancel])
        = Some s'
        ∧ items s' = items s.
Proof.
  intros rect s moves over.
  destruct (cancel_after_commit_restores_snapshot arrayMove_spec s "A1" moves
              over) as [Hitems Hreturns].
  destruct Hreturns as [s' Hs'].
  - by apply (bool_decide_unpack _).
  - constructor.
  - repeat constructor; simpl; intros o [= <-]; simpl;
      by apply (bool_decide_unpack _).
  - intros o [= <-]. by apply (bool_decide_unpack _).
  - exists s'. split; [done | by apply Hitems].
Defined.

Lemma containers_are_kept_witness :
  ∃ s, run arrayMove_spec (initialState [("A", [Some "A0"; Some "A1"]); ("B", [])])
         [DragStart "A0";
          DragOver (Some (mkOver "B" (mkRect 0 0 0 0 0 0))) (mkRect 0 0 0 0 0 0);
          DragEnd (Some (mkOver TRASH_DROPPABLE_ID (mkRect 0 0 0 0 0 0)))]
       = Some s
       ∧ keys (items s) = ["A"; "B"; TRASH_DROPPABLE_ID]
       ∧ sameContainers [("A", [Some "A0"; Some "A1"]); ("B", [])]
           (keys (items s)).
Proof.
  exists {| items := [("A", [Some "A1"]); ("B", [Some "A0"]);
                       (TRASH_DROPPABLE_ID, [])];
            selectedItems := [];
            clonedItems := Some [("A", [Some "A0"; Some "A1"]); ("B", [])];
            activeId := None; activeContainerRef := Some "B" |}.
  split; [vm_compute; reflexivity|]. split; [reflexivity|].
  by apply (containers_are_kept arrayMove_spec
              [("A", [Some "A0"; Some "A1"]); ("B", [])]
              [DragStart "A0";
               DragOver (Some (mkOver "B" (mkRect 0 0 0 0 0 0)))
                 (mkRect 0 0 0 0 0 0);
               DragEnd (Some (mkOver TRASH_DROPPABLE_ID (mkRect 0 0 0 0 0 0)))]).
Defined.

Lemma events_outside_gesture_are_ignored_witness :
  let s := {| items := [("A", [Some "A0"; Some "A1"]); ("B", [])];
              selectedItems := []; clonedItems := None;
              activeId := Some "A0"; activeContainerRef := Some "A" |} in
  let rect := mkRect 0 0 0 0 0 0 in
  let events := [DragOver (Some (mkOver "B" rect)) rect;
                 DragEnd (Some (mkOver "A1" rect))] in
  run arrayMove_spec (onDragCancel s) events = Some (onDragCancel s)
  ∧ run arrayMove_spec s events ≠ Some s.
Proof.
  intros s rect events. split; [|by vm_compute].
  apply (events_outside_gesture_are_ignored arrayMove_spec s events).
  repeat constructor.
Defined.

Lemma drop_changes_one_container_witness :
  let s := {| items := [("A", [Some "A0"; Some "A1"; Some "A2"]);
                        ("B", [Some "B0"])];
              selectedItems := []; clonedItems := None;
              activeId := Some "A0"; activeContainerRef := Some "A" |} in
  ∃ s', onDragEnd arrayMove_spec s (Some (mkOver "A2" (mkRect 0 0 0 0 0 0)))
        = Some s'
        ∧ get (items s') "A" = Some [Some "A1"; Some "A2"; Some "A0"]
        ∧ get (items s') "B" = get (items s) "B".
Proof.
  intros s. eexists. split; [reflexivity|]. split; [reflexivity|].
  apply (drop_changes_one_container arrayMove_spec s
           (Some (mkOver "A2" (mkRect 0 0 0 0 0 0)))).
  - reflexivity.
  - intros o [= <-]. split; [discriminate | by vm_compute].
Defined.

(** ** Collision detection, beyond the trash *)

Lemma closestRect_elem rects rect id :
  closestRect rects rect = Some id → id ∈ rects.*1.
Proof.
  induction rects as [|[id0 r] rects IH]; simpl; [done|].
  destruct (closestRect rects rect) as [id'|].
  - destruct (forallb _ rects); intros [= <-]; [left|right; by apply IH].
  - intros [= <-]. left.
Qed.

Lemma closestRect_None rects rect : closestRect rects rect = None ↔ rects = [].
Proof.
  destruct rects as [|[id0 r] rects]; simpl; [done|].
  split; [|done]. by repeat case_match.
Qed.

(** X12. With [rectIntersection] and [closestRect] as the spec describes
    them, the strategy reports the trash exactly when a rectangle registered
    under the trash identifier overlaps the dragged rectangle; otherwise it
    reports what [closestRect] reports among the other candidates. It only
    reports a registered identifier, and it reports none only when there is
    no candidate other than the trash. *)
Theorem collision_reports_trash_only_on_overlap clientRects clientRect :
  (customCollisionDetectionStrategy clientRects clientRect
   = Some TRASH_DROPPABLE_ID
   ↔ ∃ r, (TRASH_DROPPABLE_ID, r) ∈ clientRects
          ∧ intersects r clientRect = true)
  ∧ ((¬ ∃ r, (TRASH_DROPPABLE_ID, r) ∈ clientRects
             ∧ intersects r clientRect = true) →
     customCollisionDetectionStrategy clientRects clientRect
     = closestRect (filter (λ entry, entry.1 ≠ TRASH_DROPPABLE_ID) clientRects)
         clientRect)
  ∧ (∀ id, customCollisionDetectionStrategy clientRects clientRect = Some id →
           id ∈ clientRects.*1)
  ∧ (customCollisionDetectionStrategy clientRects clientRect = None →
     ∀ id r, (id, r) ∈ clientRects → id = TRASH_DROPPABLE_ID).
Proof.
  assert (∀ id, rectIntersection
                  (filter (λ entry, entry.1 = TRASH_DROPPABLE_ID) clientRects)
                  clientRect = Some id →
                id = TRASH_DROPPABLE_ID
                ∧ ∃ r, (TRASH_DROPPABLE_ID, r) ∈ clientRects
                       ∧ intersects r clientRect = true) as Htrash.
  { intros id (r & [Hid Hin]%list_elem_of_filter & Hr)%rectIntersection_elem.
    simpl in Hid. subst id. eauto. }
  assert (∀ id, closestRect
                  (filter (λ entry, entry.1 ≠ TRASH_DROPPABLE_ID) clientRects)
                  clientRect = Some id →
                id ≠ TRASH_DROPPABLE_ID ∧ id ∈ clientRects.*1) as Hother.
  { intros id ([id' r] & -> & [Hid Hin]%list_elem_of_filter)%closestRect_elem
      %list_elem_of_fmap.
    split; [done|]. apply list_elem_of_fmap. by exists (id', r). }
  unfold customCollisionDetectionStrategy in *.
  destruct (rectIntersection _ clientRect) as [id|] eqn:Hrect.
  - destruct (Htrash id eq_refl) as [-> Hoverlap]. simpl.
    split_and!; [done|done| |done].
    intros id [= <-]. destruct Hoverlap as (r & Hin & _).
    apply list_elem_of_fmap. by exists (TRASH_DROPPABLE_ID, r).
  - simpl.
    assert (¬ ∃ r, (TRASH_DROPPABLE_ID, r) ∈ clientRects
                   ∧ intersects r clientRect = true) as Hnone.
    { intros (r & Hin & Hr).
      destruct (rectIntersection_overlap
                  (filter (λ entry, entry.1 = TRASH_DROPPABLE_ID) clientRects)
                  clientRect TRASH_DROPPABLE_ID r) as [id Hid];
        [by apply list_elem_of_filter | done | congruence]. }
    split_and!; [|done| |].
    + split; [|done]. intros Hc. by destruct (Hother _ Hc).
    + intros id Hc. by destruct (Hother _ Hc).
    + intros Hc id r Hin. apply closestRect_None in Hc.
      destruct (decide (id = TRASH_DROPPABLE_ID)) as [|Hne]; [done|].
      assert ((id, r) ∈ filter (λ entry, entry.1 ≠ TRASH_DROPPABLE_ID) clientRects)
        as Hf by (by apply list_elem_of_filter).
      rewrite Hc in Hf. by apply elem_of_nil in Hf.
Qed.

(** ** Rendering *)

Lemma container_unique (items : Items) x k1 l1 k2 l2 :
  NoDup (allIds items) →
  (k1, l1) ∈ items → (k2, l2) ∈ items → Some x ∈ l1 → Some x ∈ l2 →
  k1 = k2.
Proof.
  induction items as [|[k l] items IH]; [by intros _ ?%elem_of_nil|].
  rewrite allIds_cons. intros (Hl & Hdisj & Hrest)%NoDup_app H1 H2 Hx1 Hx2.
  apply elem_of_cons in H1 as [H1|H1]; apply elem_of_cons in H2 as [H2|H2];
    simplify_eq; [done| | |by apply IH].
  - destruct (Hdisj x); [by apply elem_of_ids|].
    apply elem_of_allIds. by exists k2, l2.
  - destruct (Hdisj x); [by apply elem_of_ids|].
    apply elem_of_allIds. by exists k1, l1.
Qed.

(** X13. In a mapping without duplicates, an item that is in the sequence
    of the trash container is not rendered: it can be neither clicked nor
    dragged. *)
Theorem trashed_items_are_not_rendered (items : Items) x l :
  NoDup (allIds items) →
  get items TRASH_DROPPABLE_ID = Some l → Some x ∈ l →
  x ∉ renderedIds items.
Proof.
  intros Hnodup Hl%get_elem_of Hx.
  unfold renderedIds. intros (k & l' & [Hk Hin]%list_elem_of_filter & Hx')
    %elem_of_allIds.
  simpl in Hk. apply Hk. by eapply (container_unique items x).
Qed.

(** ["A0"] has been dragged into the trash. *)
Lemma trashed_items_are_not_rendered_witness :
  let items := [("A", [Some "A1"]); (TRASH_DROPPABLE_ID, [Some "A0"])] in
  renderedIds items = ["A1"] ∧ "A0" ∉ renderedIds items.
Proof.
  intros items. split; [reflexivity|].
  apply (trashed_items_are_not_rendered items "A0" [Some "A0"]).
  - by apply (bool_decide_unpack _).
  - reflexivity.
  - left.
Defined.

(** ** Whole gestures *)


Lemma onDragOver_tracking s over draggingRect s' :
  tracking s → onDragOver s over draggingRect = Some s' → tracking s'.
Proof.
  intros (active & c & l & Ha & Hc & Hl & Hin). unfold onDragOver.
  destruct over as [over|]; [|intros [= <-]; by exists active, c, l].
  destruct (findContainer (items s) (over_id over)) as [oc|];
    [|intros [= <-]; by exists active, c, l].
  rewrite Hc, Ha.
  destruct (_ || _); [intros [= <-]; by exists active, c, l|].
  case_bool_decide as Hne; [|intros [= <-]; by exists active, c, l].
  rewrite Hl. simpl.
  destruct (get (items s) oc) as [overItems|]; simpl; [|done].
  intros [= <-]. eexists active, oc, _. simpl.
  split_and!; [done|done|apply get_set_eq|].
  rewrite at_index_indexOf. unfold includes.
  rewrite (bool_decide_eq_true_2 (Some active ∈ l)) by done.
  apply elem_of_app. right. left.
Qed.

Section WholeGestures.

Variable arrayMove : list elem → Z → Z → list elem.
Variable parentItems : Items.

Hypothesis parentItems_wellFormed : wellFormed parentItems.

Hypothesis arrayMove_reorders :
  ∀ l from to, ids (arrayMove l from to) ≡ₚ ids l.

Lemma findContainer_of_item (items : Items) x :
  x ∈ allIds items → is_Some (findContainer items x).
Proof.
  intros Hx. destruct (has items x) eqn:Hhas.
  - unfold findContainer. rewrite Hhas. by eexists.
  - apply has_false in Hhas as [Hkey Hplain].
    pose proof (findContainer_item items x Hkey Hplain) as Hfind.
    destruct (findContainer items x); [by eexists | done].
Qed.

(** During a gesture the tracking container is set, and its name is not
    empty. *)
Lemma reachable_ref phase s :
  reachable arrayMove parentItems phase s → phase = Active →
  ∃ c, activeContainerRef s = Some c ∧ c ≠ "".
Proof.
  induction 1 as [| | |s active s' Hs _ Hactive Hstart
                  |s over rect s' Hs IH Hover| |]; try done.
  - intros _.
    destruct (reachable_Invariant arrayMove parentItems parentItems_wellFormed
                arrayMove_reorders _ _ Hs) as [Hinv _].
    destruct (onDragStart_fields _ _ _ Hstart) as (_ & _ & Href & _).
    destruct (findContainer_of_item (items s) active) as [c Hc].
    { by apply renderedIds_subseteq. }
    exists c. split; [congruence|].
    eapply findContainer_nonempty; [done|]. apply (inv_keys_nonempty _ _ Hinv).
  - intros _. destruct (IH eq_refl) as (c & Hc & Hne).
    destruct (reachable_Invariant arrayMove parentItems parentItems_wellFormed
                arrayMove_reorders _ _ Hs) as [Hinv _].
    destruct (onDragOver_ref _ _ _ _ Hover)
      as (_ & _ & _ & [Href|(_ & oc & Hoc & Hkey)]).
    + exists c. split; [congruence | done].
    + exists oc. split; [done|]. intros ->.
      by apply (inv_keys_nonempty _ _ Hinv).
Qed.


Lemma onDragEnd_commit_ids s over oc s' active :
  reachable arrayMove parentItems Active s →
  activeId s = Some active → active ≠ "" →
  over_id over ≠ TRASH_DROPPABLE_ID →
  findContainer (items s) (over_id over) = Some oc →
  onDragEnd arrayMove s (Some over) = Some s' →
  allIds (items s')
  ≡ₚ filter (λ x, x ≠ active) (selectedItems s) ++ allIds (items s).
Proof.
  intros Hs Ha Hne Htrash Hoc.
  destruct (reachable_Invariant arrayMove parentItems parentItems_wellFormed
              arrayMove_reorders _ _ Hs) as [Hinv _].
  destruct (reachable_ref _ _ Hs eq_refl) as (c & Hc & Hcne).
  assert (oc ≠ "") as Hocne.
  { eapply findContainer_nonempty; [done|]. apply (inv_keys_nonempty _ _ Hinv). }
  unfold onDragEnd.
  rewrite Ha, Hc, Hoc, !truthy_Some by auto. simpl.
  rewrite (bool_decide_eq_false_2 (over_id over = _)) by done.
  destruct (get (items s) c) as [l|] eqn:Hl; simpl; [|done].
  destruct (get (items s) oc) as [overItems|] eqn:HO; simpl; [|done].
  destruct (allIds_set _ _ _ HO) as (rest & Hrest & Hset).
  pose proof (indexOf_bounds overItems (over_id over)) as [Hj _].
  destruct (selectedItems s) as [|x selected] eqn:Hsel.
  - simpl. case_bool_decide; intros [= <-]; simpl; [|done].
    by rewrite Hset, arrayMove_reorders, Hrest.
  - rewrite (bool_decide_eq_false_2 (len (x :: selected) = 0))
      by (unfold len; simpl; lia).
    simpl. intros [= <-]. simpl.
    rewrite Hset, splice_in_nonneg by lia.
    by rewrite ids_insert_block, ids_Some, arrayMove_reorders, Hrest,
      (assoc (++)).
Qed.


(** The identifiers of the first render are not names that every object
    inherits. *)
Hypothesis parentItems_plain :
  ∀ id, id ∈ allIds parentItems → id ∉ objectPrototypeNames.

Lemma onDragStart_tracking s active s' :
  Invariant parentItems s → active ∈ renderedIds (items s) →
  onDragStart s active = Some s' → tracking s'.
Proof.
  intros Hinv Hactive Hstart.
  apply (onDragStart_items parentItems parentItems_wellFormed) in Hstart;
    [|done].
  subst s'.
  assert (active ∈ allIds (items s)) as Hin by (by apply renderedIds_subseteq).
  assert (active ∈ allIds parentItems) as Horig
    by (by apply (inv_ids_original _ _ Hinv)).
  assert (active ∉ keys (items s)) as Hkey
    by (by apply (original_not_key parentItems parentItems_wellFormed)).
  pose proof (findContainer_item (items s) active Hkey
                (parentItems_plain _ Horig)) as Hfind.
  destruct (findContainer (items s) active) as [c|] eqn:Hc; [|done].
  destruct Hfind as (l & Hl & Hx).
  exists active, c, (filter (λ e : elem, e ∉ Some <$> filter (λ x, x ≠ active)
                                                    (selectedItems s)) l).
  simpl. split_and!; [done|done| |].
  - rewrite get_dropIds, (elem_of_get _ _ _ (inv_keys_NoDup _ _ Hinv) Hl). done.
  - apply list_elem_of_filter. split; [|done].
    intros (y & [= <-] & [Hne _]%list_elem_of_filter)%list_elem_of_fmap. done.
Qed.

Lemma reachable_tracking phase s :
  reachable arrayMove parentItems phase s → phase = Active → tracking s.
Proof.
  induction 1 as [| | |s active s' Hs _ Hactive Hstart
                  |s over rect s' _ IH Hover| |]; try done.
  - intros _.
    destruct (reachable_Invariant arrayMove parentItems parentItems_wellFormed
                arrayMove_reorders _ _ Hs) as [Hinv _].
    by eapply onDragStart_tracking.
  - intros _. eapply onDragOver_tracking; [by apply IH | done].
Qed.

(** X14. When no item of the first render has a name that every object
    inherits, the active item is, on every state reached during a gesture,
    in the sequence of the tracking container: a live move always finds the
    active item where it looks for it, and never puts [undefined] in a
    sequence in its place. *)
Theorem active_item_is_in_tracking_container s :
  reachable arrayMove parentItems Active s → tracking s.
Proof. intros Hs. by eapply reachable_tracking. Qed.

End WholeGestures.

Lemma active_item_is_in_tracking_container_witness :
  let s := {| items := [("A", [Some "A0"; Some "A2"]);
                        ("B", [Some "B0"; Some "A1"; Some "B1"; Some "B2"]);
                        ("C", [Some "C0"; Some "C1"; Some "C2"]);
                        (TRASH_DROPPABLE_ID, [])];
              selectedItems := [];
              clonedItems := Some (defaultItems 3);
              activeId := Some "A1";
              activeContainerRef := Some "B" |} in
  reachable arrayMove_spec (defaultItems 3) Active s ∧ tracking s.
Proof.
  intros s.
  assert (reachable arrayMove_spec (defaultItems 3) Active s) as Hs.
  { apply (play_reachable arrayMove_spec (defaultItems 3) Idle
             (initialState (defaultItems 3))
             [DragStart "A1";
              DragOver (Some (mkOver "B1" (mkRect 0 0 0 0 0 0)))
                (mkRect 0 0 0 0 0 0)]).
    - apply reach_init.
    - vm_compute. reflexivity. }
  split; [done|].
  apply (active_item_is_in_tracking_container arrayMove_spec (defaultItems 3)
           (defaultItems_wellFormed 3) arrayMove_spec_reorders);
    [|done].
  intros id Hid. by apply (defaultItems_plain 3).
Defined.


(** ** The partition, up to the identifiers given up *)

Lemma NoDup_occurrences_once (l : list string) a :
  NoDup l → a ∈ l → length (filter (λ x, x = a) l) = 1%nat.
Proof.
  induction 1 as [|x l Hx Hl IH]; [by intros ?%elem_of_nil|].
  intros [->|Hin]%elem_of_cons.
  - rewrite filter_cons_True by done. simpl. by rewrite filter_eq_absent.
  - rewrite filter_cons_False; [by apply IH|]. by intros ->.
Qed.

Lemma get_None (items : Items) key : key ∉ keys items → get items key = None.
Proof.
  intros Hkey. destruct (get items key) as [l|] eqn:Hget; [|done].
  by apply get_Some_key in Hget.
Qed.

Section GivenUp.

Variable arrayMove : list elem → Z → Z → list elem.
Variable parentItems : Items.

Hypothesis parentItems_wellFormed : wellFormed parentItems.

(** No item of the first render has the empty identifier, which the guards
    of the handlers take for no identifier at all. *)
Hypothesis parentItems_named : "" ∉ allIds parentItems.

Hypothesis arrayMove_reorders :
  ∀ l from to, ids (arrayMove l from to) ≡ₚ ids l.

(** The release over the trash, once the guards are passed. *)
Lemma onDragEnd_trash s over :
  truthy (activeId s) = true → truthy (activeContainerRef s) = true →
  over_id over = TRASH_DROPPABLE_ID →
  onDragEnd arrayMove s (Some over)
  = Some (setActiveId (setItems s (set (items s) TRASH_DROPPABLE_ID [])) None).
Proof.
  intros Hactive Hcontainer Hover. unfold onDragEnd. rewrite Hactive. simpl.
  destruct (truthy_inv _ Hactive) as (a & Ha & _).
  destruct (truthy_inv _ Hcontainer) as (c & Hc & Hne).
  rewrite Ha, Hc, truthy_Some by done. simpl.
  by rewrite bool_decide_eq_true_2 by done.
Qed.

(** A release over nothing, or over a droppable that is not resolved,
    leaves the mapping. *)
Lemma onDragEnd_unresolved s over s' :
  (∀ o, over = Some o →
        over_id o ≠ TRASH_DROPPABLE_ID
        ∧ truthy (findContainer (items s) (over_id o)) = false) →
  onDragEnd arrayMove s over = Some s' → items s' = items s.
Proof.
  intros Hover. unfold onDragEnd.
  destruct (negb (truthy (activeId s))); [by intros [= <-]|].
  destruct over as [over|]; [|by intros [= <-]].
  destruct (Hover over eq_refl) as [Htrash Hfind].
  destruct (activeContainerRef s) as [ac|]; [|by intros [= <-]].
  destruct (activeId s) as [active|]; [|by intros [= <-]].
  destruct (negb (truthy (Some ac))); [by intros [= <-]|].
  rewrite (bool_decide_eq_false_2 (over_id over = _)) by done.
  destruct (findContainer (items s) (over_id over)) as [oc|];
    [|by intros [= <-]].
  rewrite Hfind. by intros [= <-].
Qed.

Lemma history_reachable phase s given_up :
  history arrayMove parentItems phase s given_up →
  reachable arrayMove parentItems phase s.
Proof.
  induction 1.
  - apply reach_init.
  - by apply reach_item_click.
  - by eapply reach_document_click.
  - by eapply reach_start.
  - by eapply reach_over.
  - by eapply reach_end.
  - by apply reach_cancel.
Qed.

(** What holds along a history: between gestures every original identifier
    that was not given up is in the mapping; during a gesture it is in the
    mapping or picked up, and it is in the snapshot. *)
Lemma history_accounted phase s given_up :
  history arrayMove parentItems phase s given_up →
  match phase with
  | Idle => accounted parentItems given_up [] (items s)
  | Active =>
      ∃ active snapshot,
        activeId s = Some active ∧ active ≠ ""
        ∧ clonedItems s = Some snapshot
        ∧ accounted parentItems given_up [] snapshot
        ∧ accounted parentItems given_up
            (filter (λ item, item ≠ active) (selectedItems s)) (items s)
  end.
Proof.
  induction 1 as [|s given_up id shiftKey Hs IH Hid
                  |s given_up nodeName parentNode s' Hs IH Hclick
                  |s given_up active s' Hs IH Hactive Hstart
                  |s given_up over rect s' Hs IH Hover
                  |s given_up over lost s' Hs IH Hlost Hend
                  |s given_up Hs IH].
  - intros id Hid _. by left.
  - unfold onSelectionChanged. by repeat case_match.
  - by apply clearSelection_cases in Hclick as [->| ->].
  - apply history_reachable in Hs.
    destruct (reachable_Invariant arrayMove parentItems parentItems_wellFormed
                arrayMove_reorders _ _ Hs) as [Hinv _].
    apply (onDragStart_items parentItems parentItems_wellFormed) in Hstart;
      [|done].
    subst s'. simpl. exists active, (items s).
    split_and!; [done| |done|done|].
    + intros ->. apply parentItems_named, (inv_ids_original _ _ Hinv).
      by apply renderedIds_subseteq.
    + assert (filter (λ x, x ≠ active)
                (if negb (bool_decide (len (selectedItems s) = 0))
                    && negb (isItemSelected s active)
                 then selectedItems s ++ [active] else selectedItems s)
              = filter (λ x, x ≠ active) (selectedItems s)) as ->.
      { destruct (_ && _); [apply filter_selection_extended | done]. }
      intros id Hid Hnot. destruct (IH id Hid Hnot) as [Hin|Hin];
        [|by apply elem_of_nil in Hin].
      destruct (decide (id ∈ filter (λ x, x ≠ active) (selectedItems s)));
        [by right|].
      left. rewrite allIds_dropIds. by apply list_elem_of_filter.
  - destruct IH as (active & snapshot & Ha & Hne & Hc & Hsnap & Hacc).
    apply history_reachable in Hs.
    destruct (reachable_Invariant arrayMove parentItems parentItems_wellFormed
                arrayMove_reorders _ _ Hs) as [Hinv _].
    pose proof (onDragOver_ids _ _ _ _ (inv_ids_NoDup _ _ Hinv) Hover) as Hids.
    destruct (onDragOver_fields _ _ _ _ Hover) as (Hc' & Hsel' & Ha' & _).
    exists active, snapshot. rewrite Ha', Hc', Hsel'.
    split_and!; [done..|].
    intros id Hid Hnot. rewrite Hids. by apply Hacc.
  - destruct IH as (active & snapshot & Ha & Hne & Hc & Hsnap & Hacc).
    apply history_reachable in Hs.
    destruct (reachable_Invariant arrayMove parentItems parentItems_wellFormed
                arrayMove_reorders _ _ Hs) as [Hinv _].
    destruct (reachable_ref arrayMove parentItems parentItems_wellFormed
                arrayMove_reorders _ _ Hs eq_refl) as (c & Href & Hcne).
    assert (∀ s0, items s0 = items s → pickedUp s = [] →
              accounted parentItems (given_up ++ []) [] (items s0)) as Hsame.
    { intros s0 -> Hsel id Hid Hnot. rewrite app_nil_r in Hnot.
      unfold pickedUp in Hsel. rewrite Ha in Hsel.
      rewrite Hsel in Hacc. by apply Hacc. }
    unfold endOutcome in Hlost. destruct over as [over|].
    + case_bool_decide as Htrash.
      * simplify_eq. rewrite onDragEnd_trash in Hend
          by (done || rewrite ?Ha, ?Href; by apply truthy_Some).
        simplify_eq. simpl. unfold discarded, pickedUp. rewrite Ha.
        intros id Hid Hnot.
        apply not_elem_of_app in Hnot as [Hnot Hlost].
        apply not_elem_of_app in Hlost as [Htrashed Hpending].
        destruct (Hacc id Hid Hnot) as [Hin|Hin]; [|done].
        left. destruct (decide (TRASH_DROPPABLE_ID ∈ keys (items s)))
          as [Hkey|Hkey].
        -- destruct (proj2 (get_is_Some _ _) Hkey) as [l Hl].
           rewrite Hl in Htrashed. simpl in Htrashed.
           destruct (allIds_set _ _ _ Hl) as (rest & Hrest & Hset).
           rewrite Hset. rewrite Hrest in Hin.
           by apply elem_of_app in Hin as [Hin|Hin].
        -- rewrite allIds_set_absent by done. apply elem_of_app. by left.
      * destruct (truthy (findContainer (items s) (over_id over))) eqn:Hfind.
        -- simplify_eq. destruct (truthy_inv _ Hfind) as (oc & Hoc & _).
           pose proof (onDragEnd_commit_ids arrayMove parentItems
                         parentItems_wellFormed arrayMove_reorders
                         s over oc s' active Hs Ha Hne Htrash Hoc Hend)
             as Hids.
           intros id Hid Hnot. rewrite app_nil_r in Hnot. left.
           rewrite Hids. apply elem_of_app.
           destruct (Hacc id Hid Hnot); auto.
        -- case_bool_decide as Hsel; [|done]. simplify_eq.
           apply Hsame; [|done].
           apply (onDragEnd_unresolved s (Some over)); [|done].
           by intros o [= <-].
    + case_bool_decide as Hsel; [|done]. simplify_eq.
      apply Hsame; [|done].
      by apply (onDragEnd_unresolved s None).
  - destruct IH as (active & snapshot & Ha & Hne & Hc & Hsnap & Hacc).
    simpl. by rewrite Hc.
Qed.

(** C1, as the code has it. The states between gestures are followed from
    the first render, along gestures that are cancelled, released over the
    trash, released over a droppable that resolves to a container, or
    released anywhere while no item other than the dragged one is selected,
    together with the identifiers given up by the releases over the trash.
    In every such state, every identifier of the original mapping that was
    not given up is in exactly one place of one sequence; no identifier is
    in two places; and every identifier of the mapping is one of the
    original mapping. *)
Theorem idle_states_partition_what_is_kept s given_up :
  history arrayMove parentItems Idle s given_up →
  (∀ id, id ∈ allIds parentItems → id ∉ given_up →
         occurrences id (items s) = 1%nat)
  ∧ (∀ id, (occurrences id (items s) ≤ 1)%nat)
  ∧ (∀ id, id ∈ allIds (items s) → id ∈ allIds parentItems).
Proof.
  intros Hs. pose proof (history_accounted _ _ _ Hs) as Hacc. simpl in Hacc.
  apply history_reachable in Hs.
  destruct (reachable_Invariant arrayMove parentItems parentItems_wellFormed
              arrayMove_reorders _ _ Hs) as [Hinv _].
  pose proof (inv_ids_NoDup _ _ Hinv) as Hnodup.
  split_and!.
  - intros id Hid Hnot. apply NoDup_occurrences_once; [done|].
    destruct (Hacc id Hid Hnot) as [Hin|Hin]; [done|].
    by apply elem_of_nil in Hin.
  - intros id. by apply NoDup_occurrences.
  - apply (inv_ids_original _ _ Hinv).
Qed.

Lemma replay_history phase s given_up events phase' s' given_up' :
  history arrayMove parentItems phase s given_up →
  replay arrayMove phase s given_up events = Some (phase', s', given_up') →
  history arrayMove parentItems phase' s' given_up'.
Proof.
  revert phase s given_up.
  induction events as [|e events IH]; intros phase s given_up Hs; simpl.
  - by intros [= <- <- <-].
  - destruct (admissible phase s e) as [phase1|] eqn:Hadm; simpl; [|done].
    destruct (match e with DragEnd over => _ | _ => _ end) as [lost|] eqn:Hlost;
      simpl; [|done].
    destruct (handle arrayMove s e) as [s1|] eqn:Hhandle; simpl; [|done].
    apply IH. clear IH.
    destruct phase, e; simpl in Hadm, Hhandle; try done;
      try case_bool_decide; simplify_eq; rewrite ?app_nil_r.
    + by apply hist_item_click.
    + by eapply hist_document_click.
    + by eapply hist_start.
    + by eapply hist_over.
    + by eapply hist_end.
    + by apply hist_cancel.
Qed.

End GivenUp.

(** ["A0"] is selected and ["A1"] is released over the trash, which gives
    up both; then ["B0"] is moved to ["C"]. The eight other identifiers are
    each in one place. *)
Lemma idle_states_partition_what_is_kept_witness :
  let rect := mkRect 0 0 0 0 0 0 in
  let trash := Some (mkOver TRASH_DROPPABLE_ID rect) in
  ∃ s given_up,
    replay arrayMove_spec Idle (initialState (defaultItems 3)) []
      [ItemClick "A0" true; DragStart "A1"; DragOver trash rect; DragEnd trash;
       ItemClick "B1" false; DragStart "B0";
       DragOver (Some (mkOver "C1" rect)) rect;
       DragEnd (Some (mkOver "B0" rect))]
    = Some (Idle, s, given_up)
    ∧ given_up = ["A1"; "A0"]
    ∧ items s = [("A", [Some "A2"]); ("B", [Some "B1"; Some "B2"]);
                 ("C", [Some "C0"; Some "B0"; Some "C1"; Some "C2"]);
                 (TRASH_DROPPABLE_ID, [])]
    ∧ (∀ id, id ∈ allIds (defaultItems 3) → id ∉ given_up →
             occurrences id (items s) = 1%nat)
    ∧ (∀ id, (occurrences id (items s) ≤ 1)%nat)
    ∧ (∀ id, id ∈ allIds (items s) → id ∈ allIds (defaultItems 3)).
Proof.
  intros rect trash.
  set (s := {| items := [("A", [Some "A2"]); ("B", [Some "B1"; Some "B2"]);
                         ("C", [Some "C0"; Some "B0"; Some "C1"; Some "C2"]);
                         (TRASH_DROPPABLE_ID, [])];
               selectedItems := [];
               clonedItems := Some [("A", [Some "A2"]);
                                    ("B", [Some "B0"; Some "B1"; Some "B2"]);
                                    ("C", [Some "C0"; Some "C1"; Some "C2"]);
                                    (TRASH_DROPPABLE_ID, [])];
               activeId := None;
               activeContainerRef := Some "C" |}).
  assert (replay arrayMove_spec Idle (initialState (defaultItems 3)) []
            [ItemClick "A0" true; DragStart "A1"; DragOver trash rect;
             DragEnd trash; ItemClick "B1" false; DragStart "B0";
             DragOver (Some (mkOver "C1" rect)) rect;
             DragEnd (Some (mkOver "B0" rect))]
          = Some (Idle, s, ["A1"; "A0"])) as Hreplay
    by (vm_compute; reflexivity).
  exists s, ["A1"; "A0"]. split; [exact Hreplay|].
  split; [reflexivity|]. split; [reflexivity|].
  apply (idle_states_partition_what_is_kept arrayMove_spec (defaultItems 3)
           (defaultItems_wellFormed 3)).
  - intros Hin. by apply (defaultItems_plain 3) in Hin as [? _].
  - apply arrayMove_spec_reorders.
  - eapply (replay_history arrayMove_spec (defaultItems 3)); [|exact Hreplay].
    apply hist_init.
Defined.

(** A release that [history] does not follow. ["A0"] is selected and
    ["A1"] is dragged and released over nothing: ["A0"], taken out of the
    mapping at the start, is not put back, and nothing gave it up. *)
Lemma release_over_nothing_loses_picked_up_items :
  ∃ s,
    play arrayMove_spec Idle (initialState (defaultItems 3))
      [ItemClick "A0" true; DragStart "A1"; DragEnd None] = Some (Idle, s)
    ∧ get (items s) "A" = Some [Some "A1"; Some "A2"]
    ∧ occurrences "A0" (items s) = 0%nat
    ∧ replay arrayMove_spec Idle (initialState (defaultItems 3)) []
        [ItemClick "A0" true; DragStart "A1"; DragEnd None] = None.
Proof. eexists. split; [vm_compute; reflexivity|]. by vm_compute. Qed.

(** ** The commit of several items *)

Section MultiItemCommit.

Variable arrayMove : list elem → Z → Z → list elem.

(** X16. When a gesture with a selection ends on a droppable other than
    the trash, the sequence of the container of that droppable is reordered
    by [arrayMove] and the selected items other than the active one are
    inserted in it as one block, right after the index of the droppable, in
    the order in which they were selected. Nothing else of the mapping
    changes, and the selection is kept. *)
Theorem multi_item_commit_inserts_block s over active ac oc activeItems
    overItems :
  activeId s = Some active → active ≠ "" →
  activeContainerRef s = Some ac → ac ≠ "" →
  selectedItems s ≠ [] →
  over_id over ≠ TRASH_DROPPABLE_ID →
  findContainer (items s) (over_id over) = Some oc → oc ≠ "" →
  get (items s) ac = Some activeItems →
  get (items s) oc = Some overItems →
  let moved := arrayMove overItems (indexOf activeItems active)
                 (indexOf overItems (over_id over)) in
  let after := Z.to_nat (indexOf overItems (over_id over) + 1) in
  ∃ s', onDragEnd arrayMove s (Some over) = Some s'
        ∧ get (items s') oc
          = Some (take after moved
                  ++ (Some <$> filter (λ item, item ≠ active) (selectedItems s))
                  ++ drop after moved)
        ∧ (∀ k, k ≠ oc → get (items s') k = get (items s) k)
        ∧ selectedItems s' = selectedItems s
        ∧ activeId s' = None.
Proof.
  intros Ha Hane Hac Hacne Hsel Htrash Hoc Hocne HA HO moved after.
  pose proof (indexOf_bounds overItems (over_id over)) as [Hj _].
  unfold onDragEnd.
  rewrite Ha, Hac, Hoc, !truthy_Some, HA, HO by done. simpl.
  rewrite (bool_decide_eq_false_2 (over_id over = _)) by done.
  rewrite (bool_decide_eq_false_2 (len (selectedItems s) = 0)).
  - simpl. eexists. split; [reflexivity|]. simpl. split_and!; [|  |done|done].
    + by rewrite get_set_eq, splice_in_nonneg by lia.
    + intros k Hk. by rewrite get_set_ne.
  - unfold len. destruct (selectedItems s); [done | simpl; lia].
Qed.

End MultiItemCommit.

(** ["A2"] was selected before ["A0"]; ["A1"] is released on itself at the
    head of ["B"]: ["A2"] comes before ["A0"]. *)
Lemma multi_item_commit_inserts_block_witness :
  let s := {| items := [("A", []); ("B", [Some "A1"; Some "B0"])];
              selectedItems := ["A2"; "A0"; "A1"]; clonedItems := None;
              activeId := Some "A1"; activeContainerRef := Some "B" |} in
  ∃ s', onDragEnd arrayMove_spec s (Some (mkOver "A1" (mkRect 0 0 0 0 0 0)))
        = Some s'
        ∧ get (items s') "B"
          = Some [Some "A1"; Some "A2"; Some "A0"; Some "B0"]
        ∧ get (items s') "A" = get (items s) "A".
Proof.
  intros s.
  destruct (multi_item_commit_inserts_block arrayMove_spec s
              (mkOver "A1" (mkRect 0 0 0 0 0 0)) "A1" "B" "B"
              [Some "A1"; Some "B0"] [Some "A1"; Some "B0"])
    as (s' & Hend & HB & Hframe & _); try reflexivity; try discriminate.
  exists s'. split; [done|]. split; [by rewrite HB | by apply Hframe].
Defined.
